(** * Region RPC services

    A model of [src/maasserver/rpc/regionservice.py]: the [RegionService]
    that listens on an ephemeral port, and the [RegionAdvertisingService]
    that publishes this process's endpoints in the [eventloops] table.

    The PostgreSQL statements the module issues are interpreted over an
    explicit table, Twisted's [Deferred] over a first-order callback chain,
    and every method is a function on an explicit state. *)

From Stdlib Require Import ZArith Lia.
From stdpp Require Import gmap strings list.

Local Open Scope Z_scope.

(** ** Exceptions and outcomes *)

Inductive exception :=
| AttributeError      (* attribute access on [None], or an unset attribute *)
| KeyError            (* [getServiceNamed] on an unknown name *)
| CancelledError      (* [defer.CancelledError] *)
| AlreadyCalledError  (* [defer.AlreadyCalledError] *)
| CannotListenError   (* the endpoint could not bind *)
| ProgrammingError    (* relation missing / relation already exists *)
| DataError           (* a value that is not of its column's type *)
| IntegrityError.     (* CHECK or UNIQUE constraint violated *)

Inductive outcome (A : Type) :=
| Return (a : A)
| Raise (e : exception).
Arguments Return {A} a.
Arguments Raise {A} e.

#[global] Instance exception_eq_dec : EqDecision exception.
Proof. solve_decision. Defined.

(** ** The [eventloops] table and the statements run against it *)

Module Sql.

Record row := Row {
  name : string;
  address : string;   (* INET, held as the text PostgreSQL prints for it *)
  port : Z;
  updated : Z   (* seconds; DEFAULT NOW() *)
}.

#[global] Instance row_eq_dec : EqDecision row.
Proof. solve_decision. Defined.

(** [eventloops_name_idx] records whether the secondary index exists;
    an absent table ([None] below) has neither rows nor index. *)
Record table := Table {
  rows : list row;
  eventloops_name_idx : bool
}.

Inductive value := Int (z : Z) | Text (s : string).
Definition tuple := list value.

Inductive statement :=
| CreateTableIfNotExists   (* CREATE UNLOGGED TABLE IF NOT EXISTS eventloops (...) *)
| LockTableExclusive       (* LOCK TABLE eventloops IN EXCLUSIVE MODE *)
| SelectIndex              (* SELECT 1 FROM pg_catalog.pg_indexes WHERE ... *)
| CreateIndex              (* CREATE INDEX eventloops_name_idx ON eventloops (name) *)
| DeleteByName (n : string)                       (* DELETE ... WHERE name = %s *)
| InsertValues (vals : list (string * string * Z)) (* INSERT ... VALUES (..), (..) *)
| DeleteStale              (* DELETE ... WHERE updated < (NOW() - INTERVAL '5 minutes') *)
| SelectAll.               (* SELECT name, address, port FROM eventloops *)

Definition minutes (n : Z) : Z := 60 * n.

(** CHECK (port > 0 AND port <= 65535) *)
Definition port_check (r : row) : Prop := port r > 0 /\ port r <= 65535.

Definition key (r : row) : string * Z := (address r, port r).
Definition triple (r : row) : string * string * Z := (name r, address r, port r).

(** The constraints a new row must meet against the rows already there:
    the CHECK, UNIQUE (name, address, port) and UNIQUE (address, port). *)
Definition admissible (rs : list row) (r : row) : Prop :=
  port_check r /\ (triple r ∉ triple <$> rs) /\ (key r ∉ key <$> rs).

#[global] Instance admissible_dec rs r : Decision (admissible rs r).
Proof. unfold admissible, port_check. apply _. Defined.

(** INTEGER is four bytes. *)
Definition integer (p : Z) : Prop := -2147483648 <= p <= 2147483647.

#[global] Instance integer_dec p : Decision (integer p).
Proof. unfold integer. apply _. Defined.

(** The values of an INSERT are read before any row is stored. [inet] is
    how PostgreSQL reads an address: the text it prints for it, one text for
    all the spellings of an address, or [None] for text that is no
    address. A port must fit INTEGER. *)
Fixpoint read (inet : string -> option string)
         (vals : list (string * string * Z))
  : option (list (string * string * Z)) :=
  match vals with
  | [] => Some []
  | (n, a, p) :: vals' =>
      match inet a with
      | Some a' =>
          if decide (integer p)
          then match read inet vals' with
               | Some out => Some ((n, a', p) :: out)
               | None => None
               end
          else None
      | None => None
      end
  end.

(** The rows of a multi-row INSERT are added one at a time, each checked
    against everything already present, earlier rows of the same statement
    included; the first violation aborts the statement. Where a row goes
    among the others means nothing: no statement asks for an order. *)
Definition new_row (now : Z) (v : string * string * Z) : row :=
  let '(n, a, p) := v in Row n a p now.

Fixpoint insert (now : Z) (vals : list (string * string * Z))
         (rs : list row) : option (list row) :=
  match vals with
  | [] => Some rs
  | v :: vals' =>
      let r := new_row now v in
      if decide (admissible rs r) then insert now vals' (rs ++ [r]) else None
  end.

Definition stale (now : Z) (r : row) : Prop := updated r < now - minutes 5.

#[global] Instance stale_dec now r : Decision (stale now r).
Proof. unfold stale. apply _. Defined.

Definition select_tuple (r : row) : tuple :=
  [Text (name r); Text (address r); Int (port r)].

(** One statement against the database at transaction time [now]: the new
    database and the result set, or the error PostgreSQL reports. *)
Definition run (inet : string -> option string) (now : Z) (s : statement)
           (d : option table)
  : outcome (option table * list tuple) :=
  match s, d with
  | CreateTableIfNotExists, None => Return (Some (Table [] false), [])
  | CreateTableIfNotExists, Some t => Return (Some t, [])
  | SelectIndex, None => Return (None, [])
  | SelectIndex, Some t =>
      Return (Some t, if eventloops_name_idx t then [[Int 1]] else [])
  | _, None => Raise ProgrammingError
  | LockTableExclusive, Some t => Return (Some t, [])
  | CreateIndex, Some t =>
      if eventloops_name_idx t then Raise ProgrammingError
      else Return (Some (Table (rows t) true), [])
  | DeleteByName n, Some t =>
      Return (Some (Table (filter (fun r => name r <> n) (rows t))
                          (eventloops_name_idx t)), [])
  | InsertValues vals, Some t =>
      match read inet vals with
      | None => Raise DataError
      | Some vals' =>
          match insert now vals' (rows t) with
          | Some rs => Return (Some (Table rs (eventloops_name_idx t)), [])
          | None => Raise IntegrityError
          end
      end
  | DeleteStale, Some t =>
      Return (Some (Table (filter (fun r => ~ stale now r) (rows t))
                          (eventloops_name_idx t)), [])
  | SelectAll, Some t => Return (Some t, select_tuple <$> rows t)
  end.

End Sql.

(** ** What the process does, in order *)

Inductive event :=
| Begin                                      (* transaction.atomic() entered *)
| Commit
| Rollback
| Execute (s : Sql.statement) (locked : bool) (* cursor.execute; was the table lock held? *)
| TimerStarted                               (* TimerService.startService *)
| TimerStopped                               (* TimerService.stopService *)
| PortClosed                                 (* port.stopListening() *)
| Logged (e : exception).                    (* log.err *)

(** ** The database connection *)

Record connection := Connection {
  inet : string -> option string;  (* how the server reads an address *)
  db : option Sql.table;
  clock : Z;              (* what NOW() reads in the current transaction *)
  exclusive : bool;       (* the EXCLUSIVE table lock is held *)
  cursor : list Sql.tuple;(* result set of the last statement *)
  trace : list event
}.

Definition M (A : Type) : Type := connection -> outcome A * connection.

Definition ret {A} (a : A) : M A := fun c => (Return a, c).
Definition raise {A} (e : exception) : M A := fun c => (Raise e, c).
Definition bind {A B} (m : M A) (k : A -> M B) : M B :=
  fun c => match m c with
           | (Return a, c') => k a c'
           | (Raise e, c') => (Raise e, c')
           end.

Declare Scope db_scope.
Delimit Scope db_scope with db.
Notation "x <~ m ;; k" := (bind m (fun x => k))
  (at level 100, m at next level, right associativity) : db_scope.
Notation "m ;;; k" := (bind m (fun _ => k))
  (at level 100, right associativity) : db_scope.

Definition record (e : event) (c : connection) : connection :=
  Connection (inet c) (db c) (clock c) (exclusive c) (cursor c) (trace c ++ [e]).

(** [cursor.execute(statement)] *)
Definition execute (s : Sql.statement) : M unit := fun c =>
  let c := record (Execute s (exclusive c)) c in
  match Sql.run (inet c) (clock c) s (db c) with
  | Return (d, res) =>
      let held := match s with
                  | Sql.LockTableExclusive => true
                  | _ => exclusive c
                  end in
      (Return tt, Connection (inet c) d (clock c) held res (trace c))
  | Raise e => (Raise e, c)
  end.

(** [list(cursor)]: the result set, consumed. *)
Definition fetchall : M (list Sql.tuple) := fun c =>
  (Return (cursor c), Connection (inet c) (db c) (clock c) (exclusive c) [] (trace c)).

(** [close_old_connections()] leaves the table alone. *)
Definition close_old_connections (c : connection) : connection :=
  Connection (inet c) (db c) (clock c) (exclusive c) [] (trace c).

(** The [transactional] decorator: [func] runs inside [transaction.atomic()];
    leaving the block normally commits, leaving it by an exception restores
    the database as it was on entry and re-raises. Either way the table lock
    goes with the transaction. *)
Definition transactional {A} (func : M A) : M A := fun c =>
  match func (record Begin c) with
  | (Return a, c') =>
      (Return a,
       close_old_connections
         (record Commit (Connection (inet c') (db c') (clock c') false (cursor c') (trace c'))))
  | (Raise e, c') =>
      (Raise e,
       close_old_connections
         (record Rollback (Connection (inet c) (db c) (clock c') false (cursor c') (trace c'))))
  end.

(** [with closing(connection.cursor()) as cursor]: the cursor is closed on
    the way out, normal or not. *)
Definition closing {A} (body : M A) : M A := fun c =>
  let '(r, c') := body c in
  (r, Connection (inet c') (db c') (clock c') (exclusive c') [] (trace c')).

(** [synchronised(lock)]: the calls of this model run one after another, so
    the lock is free on entry and released on exit. *)
Definition synchronised {A} (func : M A) : M A := func.

(** ** Twisted's [Deferred]

    Callbacks are named by a first-order type [C] and interpreted by [call]
    over the state [S] of the object that owns the deferred. *)

Module Deferred.

Inductive link (C : Type) :=
| Callback (f : C)    (* addCallback(f) *)
| Errback (f : C).    (* addErrback(f) *)
Arguments Callback {C} f.
Arguments Errback {C} f.

(** [result = None] is a deferred that has not been called yet. *)
Record t (C V : Type) := Make {
  result : option (outcome V);
  suppressAlreadyCalled : bool;
  callbacks : list (link C)
}.
Arguments Make {C V} result suppressAlreadyCalled callbacks.
Arguments result {C V} _.
Arguments suppressAlreadyCalled {C V} _.
Arguments callbacks {C V} _.

Definition called {C V} (d : t C V) : bool :=
  match result d with Some _ => true | None => false end.

(** A fresh deferred, as [endpoint.listen] or [deferToThread] hands out. *)
Definition pending {C V} : t C V := Make None false [].

(** [defer.succeed(v)] *)
Definition succeed {C V} (v : V) : t C V := Make (Some (Return v)) false [].

Section Run.
Context {S C V : Type}.
Variable call : C -> outcome V -> S -> outcome V * S.

(** A callback sees only results, an errback only failures; the other
    kind passes through. *)
Definition step (l : link C) (r : outcome V) (s : S) : outcome V * S :=
  match l, r with
  | Callback f, Return _ => call f r s
  | Errback f, Raise _ => call f r s
  | _, _ => (r, s)
  end.

Fixpoint run (ls : list (link C)) (r : outcome V) (s : S) : outcome V * S :=
  match ls with
  | [] => (r, s)
  | l :: ls' => let '(r', s') := step l r s in run ls' r' s'
  end.

Definition _runCallbacks (d : t C V) (s : S) : t C V * S :=
  match result d with
  | Some r =>
      let '(r', s') := run (callbacks d) r s in
      (Make (Some r') (suppressAlreadyCalled d) [], s')
  | None => (d, s)
  end.

Definition addCallbacks (l : link C) (d : t C V) (s : S) : t C V * S :=
  _runCallbacks
    (Make (result d) (suppressAlreadyCalled d) (callbacks d ++ [l])) s.

(** [d.callback(v)] / [d.errback(f)]: a second result is an error unless
    the deferred was cancelled, in which case it is dropped, once. *)
Definition fire (r : outcome V) (d : t C V) (s : S)
  : outcome (t C V) * S :=
  if called d then
    if suppressAlreadyCalled d
    then (Return (Make (result d) false (callbacks d)), s)
    else (Raise AlreadyCalledError, s)
  else
    let '(d', s') :=
      _runCallbacks (Make (Some r) (suppressAlreadyCalled d) (callbacks d)) s in
    (Return d', s').

(** [d.cancel()] on a deferred without a canceller. *)
Definition cancel (d : t C V) (s : S) : t C V * S :=
  if called d then (d, s)
  else _runCallbacks
         (Make (Some (Raise CancelledError)) true (callbacks d)) s.
End Run.

End Deferred.

(** ** [RegionService]: the RPC listener *)

Module RegionService.

(** The socket of a listening port; [getsockname] is what the operating
    system reports for it: host and port. *)
Record Socket := { getsockname : string * Z }.

(** The port object [endpoint.listen] fires with. Its [socket] attribute
    is set while the port is open. *)
Record Port := { socket : option Socket }.

Inductive value := PyNone | PyPort (p : Port).

Inductive callback := save_port | ignore_cancellation | log_err | stop_service.

Definition deferred : Type := Deferred.t callback value.

Record t := Make {
  running : bool;
  starting : option deferred;   (* class attribute [starting = None] *)
  _port : option Port;
  log : list event
}.

Definition __init__ : t := Make false None None [].

(** The functions [startService] and [stopService] hang on deferreds. *)
Definition call (f : callback) (r : outcome value) (s : t) : outcome value * t :=
  match f, r with
  | save_port, Return (PyPort p) =>
      (r, Make (running s) (starting s) (Some p) (log s))
  | save_port, Return PyNone =>
      (r, Make (running s) (starting s) None (log s))
  | ignore_cancellation, Raise CancelledError => (Return PyNone, s)
  | log_err, Raise e =>
      (Return PyNone, Make (running s) (starting s) (_port s) (log s ++ [Logged e]))
  | stop_service, Return _ =>
      (Return PyNone, Make false (starting s) (_port s) (log s))
  | _, _ => (r, s)
  end.

Definition set_starting (d : deferred) (s : t) : t :=
  Make (running s) (Some d) (_port s) (log s).

(** [listen] is what [self.endpoint.listen(self.factory)] returns: a
    deferred still waiting for the bind ([None]), or one that has already
    fired with the port or with the error. *)
Definition startService (listen : option (outcome Port)) (s : t) : t :=
  let s := Make true (starting s) (_port s) (log s) in
  let d : deferred :=
    Deferred.Make
      (match listen with
       | None => None
       | Some (Return p) => Some (Return (PyPort p))
       | Some (Raise e) => Some (Raise e)
       end) false [] in
  let '(d, s) := Deferred.addCallbacks call (Deferred.Callback save_port) d s in
  let '(d, s) := Deferred.addCallbacks call (Deferred.Errback ignore_cancellation) d s in
  let '(d, s) := Deferred.addCallbacks call (Deferred.Errback log_err) d s in
  set_starting d s.

(** The endpoint finishes a bind that was in flight and fires [starting]. *)
Definition listened (r : outcome Port) (s : t) : outcome unit * t :=
  match starting s with
  | None => (Return tt, s)
  | Some d =>
      let r' := match r with
                | Return p => Return (PyPort p)
                | Raise e => Raise e
                end in
      match Deferred.fire call r' d s with
      | (Return d', s') => (Return tt, set_starting d' s')
      | (Raise e, s') => (Raise e, s')
      end
  end.

Section Stop.
(** [port.stopListening()]: the port afterwards, and the deferred it
    returns, or [None] when it returns none. *)
Variable stopListening : Port -> Port * option deferred.

Definition stopService (s : t) : outcome deferred * t :=
  match starting s with
  | None => (Raise AttributeError, s)
  | Some d0 =>
      let '(d0, s) := Deferred.cancel call d0 s in
      let s := set_starting d0 s in
      match _port s with
      | None =>
          let '(d, s) :=
            Deferred.addCallbacks call (Deferred.Callback stop_service)
              (Deferred.succeed PyNone) s in
          (Return d, s)
      | Some p =>
          let '(p', d) := stopListening p in
          let s := Make (running s) (starting s) (Some p') (log s ++ [PortClosed]) in
          match d with
          | None => (Raise AttributeError, s)
          | Some d =>
              let '(d, s) :=
                Deferred.addCallbacks call (Deferred.Callback stop_service) d s in
              (Return d, s)
          end
      end
  end.
End Stop.



(** [self._port.socket]: an [AttributeError] when [_port] is [None] or the
    attribute is not set. *)
Definition _port_socket (s : t) : outcome Socket :=
  match _port s with
  | None => Raise AttributeError
  | Some p =>
      match socket p with
      | None => Raise AttributeError
      | Some sock => Return sock
      end
  end.

Definition getPort (s : t) : outcome (option Z) :=
  match _port_socket s with
  | Raise AttributeError => Return None
  | Raise e => Raise e
  | Return sock => let '(host, port) := getsockname sock in Return (Some port)
  end.

End RegionService.

(** ** [RegionAdvertisingService] *)

Module RegionAdvertisingService.

Local Open Scope db_scope.

(** What the service reads from the process around it. *)
Record environment := {
  loop_name : string;                        (* eventloop.loop.name *)
  services : gmap string RegionService.t;    (* eventloop.services *)
  get_all_interface_addresses : list string
}.

(** *** The statements *)

Definition _create_statement := Sql.CreateTableIfNotExists.
Definition _create_lock_statement := Sql.LockTableExclusive.
Definition _create_index_check_statement := Sql.SelectIndex.
Definition _create_index_statement := Sql.CreateIndex.
Definition _delete_statement (n : string) := Sql.DeleteByName n.
Definition _insert_statement (values : list (string * string * Z)) :=
  Sql.InsertValues values.
Definition _collect_statement := Sql.DeleteStale.
Definition _select_statement := Sql.SelectAll.

Definition _do_create : M unit :=
  execute _create_statement ;;;
  execute _create_lock_statement ;;;
  execute _create_index_check_statement ;;;
  found <~ fetchall ;;
  match found with
  | [] => execute _create_index_statement
  | _ :: _ => ret tt
  end.

Definition _do_delete (env : environment) : M unit :=
  execute (_delete_statement (loop_name env)).

(** [eventloop.services.getServiceNamed(name)] *)
Definition getServiceNamed (env : environment) (n : string)
  : outcome RegionService.t :=
  match services env !! n with
  | Some service => Return service
  | None => Raise KeyError
  end.

Definition _get_addresses (env : environment) : outcome (list (string * Z)) :=
  match getServiceNamed env "rpc" with
  | Raise KeyError => Return []
  | Raise e => Raise e
  | Return service =>
      match RegionService.getPort service with
      | Raise e => Raise e
      | Return None => Return []
      | Return (Some port) =>
          Return ((fun addr => (addr, port)) <$> get_all_interface_addresses env)
      end
  end.

(** What the loop of [_do_insert] collects: one (name, addr, port) per
    pair that [_get_addresses] yields. *)
Definition insert_values (name : string) (pairs : list (string * Z))
  : list (string * string * Z) :=
  (fun '(addr, port) => (name, addr, port)) <$> pairs.

Definition _do_insert (env : environment) : M unit :=
  let name := loop_name env in
  match _get_addresses env with
  | Raise e => raise e
  | Return pairs =>
      let values := insert_values name pairs in
      if decide (length values <> 0%nat)
      then execute (_insert_statement values)
      else ret tt
  end.

Definition _do_collect : M unit := execute _collect_statement.

Definition _do_select : M unit := execute _select_statement.

(** *** The four operations on the table *)

Definition prepare : M unit :=
  synchronised (transactional (closing _do_create)).

Definition update (env : environment) : M unit :=
  synchronised (transactional (closing (
    _do_delete env ;;; _do_insert env ;;; _do_collect))).

Definition dump : M (list Sql.tuple) :=
  synchronised (transactional (closing (_do_select ;;; fetchall))).

Definition remove (env : environment) : M unit :=
  synchronised (transactional (closing (_do_delete env))).

(** *** The service *)

Inductive value := PyNone.

Inductive callback :=
| super_startService | ignore_cancellation | log_err | super_stopService
| loop_returned     (* LoopingCall: the call it waited for is back *)
| loop_failed.      (* LoopingCall: the call failed; TimerService._failed *)

Definition deferred : Type := Deferred.t callback value.

(** The methods handed to [deferToThread]. *)
Inductive method := Prepare | Update | Remove.

(** The [LoopingCall] of the [TimerService]. *)
Inductive loop :=
| NoLoop      (* the timer was never started: there is no [_loop] *)
| Scheduled   (* running; the next call is scheduled *)
| Calling     (* running; a call is with a thread *)
| Stopping    (* stopped during a call: finished when that call is back *)
| Finished.   (* stopped, or ended by a failed call *)

(** Deferreds are objects: [starting], [stopping] and the thread pool
    refer to them by their place in [deferreds]. [threads] holds the
    [deferToThread] calls that have not run yet, oldest first. *)
Record t := Make {
  starting : option nat;
  stopping : option nat;
  running : bool;
  _loop : loop;
  deferreds : list deferred;
  threads : list (method * nat);
  conn : connection
}.

Definition __init__ (c : connection) : t := Make None None false NoLoop [] [] c.

Definition log_event (e : event) (w : t) : t :=
  Make (starting w) (stopping w) (running w) (_loop w) (deferreds w) (threads w)
       (record e (conn w)).

Definition set_running (b : bool) (w : t) : t :=
  Make (starting w) (stopping w) b (_loop w) (deferreds w) (threads w) (conn w).

Definition set_loop (l : loop) (w : t) : t :=
  Make (starting w) (stopping w) (running w) l (deferreds w) (threads w) (conn w).

Definition deferToThread (f : method) (w : t) : nat * t :=
  let d := length (deferreds w) in
  (d, Make (starting w) (stopping w) (running w) (_loop w)
           (deferreds w ++ [Deferred.pending]) (threads w ++ [(f, d)]) (conn w)).

(** The [LoopingCall] makes its call, [deferToThread(self.update)], and
    waits for the deferred: back with a result it schedules the next call,
    back with a failure it ends. *)
Definition call_update (w : t) : t :=
  let d := length (deferreds w) in
  Make (starting w) (stopping w) (running w) Calling
       (deferreds w
        ++ [Deferred.Make None false
              [Deferred.Callback loop_returned; Deferred.Errback loop_failed]])
       (threads w ++ [(Update, d)]) (conn w).

(** [TimerService.startService] starts the loop with [now=True]: the first
    call is made at once. *)
Definition TimerService_startService (w : t) : t :=
  call_update (set_running true (log_event TimerStarted w)).

(** [TimerService.stopService] stops the loop if it runs, and marks the
    service stopped when the loop has finished: at once, unless a call is
    with a thread. Without a loop there is no [_loop] to ask. *)
Definition TimerService_stopService (w : t) : outcome value * t :=
  match _loop w with
  | NoLoop => (Raise AttributeError, w)
  | Scheduled =>
      (Return PyNone, set_running false (set_loop Finished (log_event TimerStopped w)))
  | Calling => (Return PyNone, set_loop Stopping (log_event TimerStopped w))
  | Stopping => (Return PyNone, log_event TimerStopped w)
  | Finished => (Return PyNone, set_running false (log_event TimerStopped w))
  end.

Definition call (f : callback) (r : outcome value) (w : t) : outcome value * t :=
  match f, r with
  | super_startService, Return _ => (Return PyNone, TimerService_startService w)
  | ignore_cancellation, Raise CancelledError => (Return PyNone, w)
  | log_err, Raise e => (Return PyNone, log_event (Logged e) w)
  | super_stopService, Return _ => TimerService_stopService w
  | loop_returned, Return _ =>
      match _loop w with
      | Calling => (Return PyNone, set_loop Scheduled w)
      | Stopping => (Return PyNone, set_running false (set_loop Finished w))
      | _ => (Return PyNone, w)
      end
  | loop_failed, Raise e =>
      match _loop w with
      | Stopping =>
          (Return PyNone,
           set_running false (set_loop Finished (log_event (Logged e) w)))
      | _ => (Return PyNone, set_loop Finished (log_event (Logged e) w))
      end
  | _, _ => (r, w)
  end.

Definition set_deferred (i : nat) (d : deferred) (w : t) : t :=
  Make (starting w) (stopping w) (running w) (_loop w) (<[i:=d]> (deferreds w))
       (threads w) (conn w).

Definition addCallbacks (l : Deferred.link callback) (i : nat) (w : t) : t :=
  match deferreds w !! i with
  | Some d =>
      let '(d', w') := Deferred.addCallbacks call l d w in set_deferred i d' w'
  | None => w
  end.

Definition cancel (i : nat) (w : t) : t :=
  match deferreds w !! i with
  | Some d => let '(d', w') := Deferred.cancel call d w in set_deferred i d' w'
  | None => w
  end.

(** The reactor delivers a thread's result to its deferred; an error
    raised on the way is the reactor's to log. *)
Definition fire (r : outcome value) (i : nat) (w : t) : t :=
  match deferreds w !! i with
  | Some d =>
      match Deferred.fire call r d w with
      | (Return d', w') => set_deferred i d' w'
      | (Raise e, w') => log_event (Logged e) w'
      end
  | None => w
  end.

Definition startService (w : t) : outcome nat * t :=
  let '(d, w) := deferToThread Prepare w in
  let w := Make (Some d) (stopping w) (running w) (_loop w) (deferreds w)
                (threads w) (conn w) in
  let w := addCallbacks (Deferred.Callback super_startService) d w in
  let w := addCallbacks (Deferred.Errback ignore_cancellation) d w in
  let w := addCallbacks (Deferred.Errback log_err) d w in
  (Return d, w).

Definition stopService (w : t) : outcome nat * t :=
  match starting w with
  | None => (Raise AttributeError, w)
  | Some s =>
      match deferreds w !! s with
      | None => (Raise AttributeError, w)
      | Some d =>
          if Deferred.called d then
            let '(p, w) := deferToThread Remove w in
            let w := Make (starting w) (Some p) (running w) (_loop w)
                          (deferreds w) (threads w) (conn w) in
            let w := addCallbacks (Deferred.Callback super_stopService) p w in
            (Return p, w)
          else
            (Return s, cancel s w)
      end
  end.

Definition body (env : environment) (f : method) : M unit :=
  match f with
  | Prepare => prepare
  | Update => update env
  | Remove => remove env
  end.

(** A pool thread takes the oldest waiting call, runs it against the
    database at time [now], and its result goes to the deferred. *)
Definition run_thread (env : environment) (now : Z) (w : t) : t :=
  match threads w with
  | [] => w
  | (f, d) :: rest =>
      let c := conn w in
      let '(r, c') :=
        body env f
          (Connection (inet c) (db c) now (exclusive c) (cursor c) (trace c)) in
      let w := Make (starting w) (stopping w) (running w) (_loop w)
                    (deferreds w) rest c' in
      fire (match r with Return _ => Return PyNone | Raise e => Raise e end) d w
  end.

(** The timer comes round: a loop whose next call is scheduled makes it. *)
Definition tick (w : t) : t :=
  match _loop w with
  | Scheduled => call_update w
  | _ => w
  end.

End RegionAdvertisingService.

(** ** Runs of the table operations

    A history of the table: it starts absent, and every later state comes
    from one of the four operations, run by some process at some time,
    whether the operation succeeds or not. *)

Definition at_time (now : Z) (c : connection) : connection :=
  Connection (inet c) (db c) now (exclusive c) (cursor c) (trace c).

Inductive reachable : connection -> Prop :=
| reach_fresh inet now : reachable (Connection inet None now false [] [])
| reach_prepare c now :
    reachable c -> reachable (snd (RegionAdvertisingService.prepare (at_time now c)))
| reach_update env c now :
    reachable c -> reachable (snd (RegionAdvertisingService.update env (at_time now c)))
| reach_remove env c now :
    reachable c -> reachable (snd (RegionAdvertisingService.remove env (at_time now c)))
| reach_dump c now :
    reachable c -> reachable (snd (RegionAdvertisingService.dump (at_time now c))).

(** The two UNIQUE constraints of the table. *)
Definition unique (d : option Sql.table) : Prop :=
  match d with
  | None => True
  | Some t => NoDup (Sql.key <$> Sql.rows t) /\ NoDup (Sql.triple <$> Sql.rows t)
  end.

(** The rows of a database, none when the table is absent. *)
Definition rows_of (d : option Sql.table) : list Sql.row :=
  match d with
  | None => []
  | Some t => Sql.rows t
  end.

(** The rows [name] owns, as [dump] shows them. *)
Definition owned (name : string) (d : option Sql.table) : list Sql.tuple :=
  Sql.select_tuple <$> filter (fun r => Sql.name r = name) (rows_of d).

(** The (address, port) pairs as the server reads them, when it can read
    them all: each address in the text the server prints for it. *)
Fixpoint read_pairs (inet : string -> option string) (pairs : list (string * Z))
  : option (list (string * Z)) :=
  match pairs with
  | [] => Some []
  | (a, p) :: pairs' =>
      match inet a with
      | Some a' =>
          if decide (Sql.integer p)
          then match read_pairs inet pairs' with
               | Some out => Some ((a', p) :: out)
               | None => None
               end
          else None
      | None => None
      end
  end.

(** The statements one [update] by [self] executes when [_get_addresses]
    yields [pairs]; [held] says whether the table lock was held on entry. *)
Definition update_statements (self : string) (pairs : list (string * Z))
           (held : bool) : list event :=
  let values := RegionAdvertisingService.insert_values self pairs in
  Execute (RegionAdvertisingService._delete_statement self) held
  :: (if decide (length values <> 0%nat)
      then [Execute (RegionAdvertisingService._insert_statement values) held]
      else [])
  ++ [Execute RegionAdvertisingService._collect_statement held].

(** The trace after an [update] by [self] whose INSERT of [pairs] the
    server refuses. *)
Definition refused_trace (self : string) (pairs : list (string * Z))
           (c : connection) : list event :=
  let values := RegionAdvertisingService.insert_values self pairs in
  trace c
  ++ [Begin;
      Execute (RegionAdvertisingService._delete_statement self) (exclusive c);
      Execute (RegionAdvertisingService._insert_statement values) (exclusive c);
      Rollback].

(** The statements one [prepare] executes on a database where the index
    [eventloops_name_idx] exists or not; the check and the CREATE INDEX run
    with the table lock held. *)
Definition prepare_statements (indexed held : bool) : list event :=
  [Execute RegionAdvertisingService._create_statement held;
   Execute RegionAdvertisingService._create_lock_statement held;
   Execute RegionAdvertisingService._create_index_check_statement true]
  ++ (if indexed then []
      else [Execute RegionAdvertisingService._create_index_statement true]).

Definition indexed (d : option Sql.table) : bool :=
  match d with
  | None => false
  | Some t => Sql.eventloops_name_idx t
  end.

(** The callbacks [RegionAdvertisingService.startService] leaves on
    [starting] while the preparation has not come back. *)
Definition start_chain : list (Deferred.link RegionAdvertisingService.callback) :=
  [Deferred.Callback RegionAdvertisingService.super_startService;
   Deferred.Errback RegionAdvertisingService.ignore_cancellation;
   Deferred.Errback RegionAdvertisingService.log_err].

(** ** A process and a table to try things on *)

Module Example.
Import Sql.

Definition sock : RegionService.Socket :=
  {| RegionService.getsockname := ("0.0.0.0"%string, 4321) |}.

Definition port : RegionService.Port :=
  {| RegionService.socket := Some sock |}.

(** A listener that is bound, and one whose bind has not finished. *)
Definition listening : RegionService.t :=
  RegionService.startService (Some (Return port)) RegionService.__init__.

Definition binding : RegionService.t :=
  RegionService.startService None RegionService.__init__.

Definition env : RegionAdvertisingService.environment :=
  {| RegionAdvertisingService.loop_name := "regiond-1";
     RegionAdvertisingService.services := {[ "rpc"%string := listening ]};
     RegionAdvertisingService.get_all_interface_addresses := ["10.0.0.5"%string] |}.

Definition env_unbound : RegionAdvertisingService.environment :=
  {| RegionAdvertisingService.loop_name := "regiond-1";
     RegionAdvertisingService.services := {[ "rpc"%string := binding ]};
     RegionAdvertisingService.get_all_interface_addresses := ["10.0.0.5"%string] |}.

(** Another process claims the socket that [env] advertises. *)
Definition env_rival : RegionAdvertisingService.environment :=
  {| RegionAdvertisingService.loop_name := "regiond-2";
     RegionAdvertisingService.services := {[ "rpc"%string := listening ]};
     RegionAdvertisingService.get_all_interface_addresses := ["10.0.0.5"%string] |}.

(** A peer's row, written at time 0, and a row of this process. *)
Definition peer : row := Row "regiond-2" "10.0.0.9" 4321 0.
Definition own : row := Row "regiond-1" "10.0.0.5" 4321 0.

(** A server that reads every text as an address and prints it as given,
    but for one long spelling of the loopback address and one text that is
    no address. *)
Definition inet (a : string) : option string :=
  if decide (a = "0:0:0:0:0:0:0:1"%string) then Some "::1"%string
  else if decide (a = "localhost"%string) then None
  else Some a.

(** A process with the loopback address spelled in two ways, and one
    with a host name where an address is expected. *)
Definition env_loopback : RegionAdvertisingService.environment :=
  {| RegionAdvertisingService.loop_name := "regiond-1";
     RegionAdvertisingService.services := {[ "rpc"%string := listening ]};
     RegionAdvertisingService.get_all_interface_addresses :=
       ["::1"%string; "0:0:0:0:0:0:0:1"%string] |}.

Definition env_hostname : RegionAdvertisingService.environment :=
  {| RegionAdvertisingService.loop_name := "regiond-1";
     RegionAdvertisingService.services := {[ "rpc"%string := listening ]};
     RegionAdvertisingService.get_all_interface_addresses := ["localhost"%string] |}.

Definition conn (now : Z) : connection :=
  Connection inet (Some (Table [peer; own] true)) now false [] [].

Definition fresh : connection := Connection inet None 0 false [] [].

(** The table after [prepare] at time 0 and one [update] by [env] at
    time 10. *)
Definition advertised : connection :=
  snd (RegionAdvertisingService.update env
         (at_time 10 (snd (RegionAdvertisingService.prepare (at_time 0 fresh))))).

(** The advertising service just started, and the same once the
    preparation and the first cycle have run. *)
Definition preparing : RegionAdvertisingService.t :=
  snd (RegionAdvertisingService.startService
         (RegionAdvertisingService.__init__ fresh)).

Definition started : RegionAdvertisingService.t :=
  RegionAdvertisingService.run_thread env 10
    (RegionAdvertisingService.run_thread env 0 preparing).
End Example.

(** ** [MockVaultClient], the in-memory vault of [pytest_tests/test_secrets.py]

    [store] is the dict the object holds; each method takes the store it
    finds and returns the store it leaves. Secret values are of any type. *)

Module MockVaultClient.

(** [SecretNotFound(path)] *)
Inductive secret_exception := SecretNotFound (path : string).

Section Client.
Context {V : Type}.

(** [self.store = {}] *)
Definition __init__ : gmap string V := ∅.

(** [self.store[path] = value] *)
Definition set (store : gmap string V) (path : string) (value : V)
  : gmap string V :=
  <[path := value]> store.

(** [self.store[path]], a [KeyError] turned into [SecretNotFound(path)]. *)
Definition get (store : gmap string V) (path : string) : V + secret_exception :=
  match store !! path with
  | Some value => inl value
  | None => inr (SecretNotFound path)
  end.

(** [self.store.pop(path, None)] *)
Definition delete (store : gmap string V) (path : string) : gmap string V :=
  base.delete path store.
End Client.

End MockVaultClient.

(** * Properties *)

(** ** Rows and statements *)

Section SqlFacts.
Import Sql.

Lemma triple_key (rs : list row) (r : row) :
  triple r ∈ triple <$> rs -> key r ∈ key <$> rs.
Proof.
  intros H. apply list_elem_of_fmap in H as (r' & Heq & Hin).
  apply list_elem_of_fmap. exists r'. split; [|exact Hin].
  unfold triple, key in *. congruence.
Qed.

Lemma NoDup_key_triple (rs : list row) :
  NoDup (key <$> rs) -> NoDup (triple <$> rs).
Proof.
  induction rs as [|r rs IH]; simpl; intros H.
  - constructor.
  - apply NoDup_cons in H as [Hnotin Hnd]. apply NoDup_cons. split.
    + intros Hin. apply Hnotin. now apply triple_key.
    + now apply IH.
Qed.

Lemma admissible_iff (rs : list row) (r : row) :
  admissible rs r <-> port_check r /\ key r ∉ key <$> rs.
Proof.
  unfold admissible. split.
  - intros (Hp & _ & Hk). now split.
  - intros (Hp & Hk). split; [exact Hp | split; [| exact Hk]].
    intros Hin. apply Hk. now apply triple_key.
Qed.

Lemma insert_app now vals : forall rs rs',
  insert now vals rs = Some rs' -> rs' = rs ++ (new_row now <$> vals).
Proof.
  induction vals as [|v vals IH]; simpl; intros rs rs' H.
  - injection H as <-. now rewrite app_nil_r.
  - destruct (decide (admissible rs (new_row now v))); [|discriminate].
    apply IH in H. now rewrite H, <- app_assoc.
Qed.

Lemma insert_NoDup now vals : forall rs rs',
  NoDup (key <$> rs) -> insert now vals rs = Some rs' -> NoDup (key <$> rs').
Proof.
  induction vals as [|v vals IH]; simpl; intros rs rs' Hnd H.
  - now injection H as <-.
  - destruct (decide (admissible rs (new_row now v))) as [Ha|]; [|discriminate].
    apply (IH _ _) in H; [exact H|].
    rewrite fmap_app. simpl. apply NoDup_app. repeat split.
    + exact Hnd.
    + intros k Hk Hk'. apply list_elem_of_singleton in Hk'. subst k.
      apply admissible_iff in Ha as [_ Ha]. now apply Ha.
    + apply NoDup_singleton.
Qed.

(** A value whose (address, port) is already taken makes the whole INSERT
    fail. *)
Lemma insert_conflict now vals : forall rs v,
  v ∈ vals -> key (new_row now v) ∈ key <$> rs -> insert now vals rs = None.
Proof.
  induction vals as [|v' vals IH]; simpl; intros rs v Hin Hk.
  - now apply elem_of_nil in Hin.
  - destruct (decide (admissible rs (new_row now v'))) as [Ha|]; [|reflexivity].
    apply elem_of_cons in Hin as [->|Hin].
    + apply admissible_iff in Ha as [_ Ha]. now destruct Ha.
    + apply (IH _ v Hin). rewrite fmap_app. apply elem_of_app. now left.
Qed.

(** An INSERT that fits a table fits every table with fewer keys, at any
    time. *)
Lemma insert_mono now now' vals : forall rs rs' out,
  insert now vals rs = Some out ->
  (forall k, k ∈ key <$> rs' -> k ∈ key <$> rs) ->
  insert now' vals rs' = Some (rs' ++ (new_row now' <$> vals)).
Proof.
  induction vals as [|v vals IH]; simpl; intros rs rs' out H Hsub.
  - now rewrite app_nil_r.
  - destruct (decide (admissible rs (new_row now v))) as [Ha|]; [|discriminate].
    apply admissible_iff in Ha as [Hp Hk].
    destruct (decide (admissible rs' (new_row now' v))) as [|Hn].
    + rewrite (IH _ (rs' ++ [new_row now' v]) _ H).
      * now rewrite <- app_assoc.
      * intros k. rewrite !fmap_app, !elem_of_app. intros [Hin|Hin].
        -- left. now apply Hsub.
        -- right. simpl in *. destruct v as [[vn va] vp]. exact Hin.
    + destruct Hn. apply admissible_iff. destruct v as [[vn va] vp]. split.
      * exact Hp.
      * intros Hin. apply Hk. now apply Hsub.
Qed.

Lemma key_filter (P : row -> Prop) `{forall r, Decision (P r)} (rs : list row) k :
  k ∈ key <$> filter P rs -> k ∈ key <$> rs.
Proof.
  intros Hin. apply list_elem_of_fmap in Hin as (r & -> & Hr).
  apply list_elem_of_filter in Hr as [_ Hr].
  apply list_elem_of_fmap. now exists r.
Qed.

Lemma NoDup_key_filter (P : row -> Prop) `{forall r, Decision (P r)} (rs : list row) :
  NoDup (key <$> rs) -> NoDup (key <$> filter P rs).
Proof.
  induction rs as [|r rs IH]; simpl; intros Hnd.
  - constructor.
  - apply NoDup_cons in Hnd as [Hnotin Hnd]. rewrite filter_cons.
    destruct (decide (P r)); [|now apply IH].
    simpl. apply NoDup_cons. split; [|now apply IH].
    intros Hin. apply Hnotin. eapply key_filter. exact Hin.
Qed.

End SqlFacts.

(** ** The table operations in closed form *)

Section Operations.
Import Sql RegionAdvertisingService.

Variable env : environment.

Local Abbreviation self := (loop_name env).

Lemma transactional_raise {A} (func : M A) c e c' :
  transactional func c = (Raise e, c') -> db c' = db c.
Proof.
  unfold transactional. destruct (func (record Begin c)) as [[a|e'] c1];
    intros H; inversion H; reflexivity.
Qed.

Lemma remove_present c t :
  db c = Some t ->
  remove env c =
    (Return tt,
     Connection (inet c)
       (Some (Table (filter (fun r => name r <> self) (rows t))
                    (eventloops_name_idx t)))
       (clock c) false []
       (trace c ++ [Begin; Execute (_delete_statement self) (exclusive c); Commit])).
Proof.
  destruct c as [rd d clk ex cur tr]; simpl. intros ->.
  unfold remove, synchronised, transactional, closing, _do_delete, execute,
    record, close_old_connections; simpl.
  now rewrite <- !app_assoc.
Qed.

Lemma remove_absent c :
  db c = None ->
  remove env c =
    (Raise ProgrammingError,
     Connection (inet c) None (clock c) false []
       (trace c ++ [Begin; Execute (_delete_statement self) (exclusive c); Rollback])).
Proof.
  destruct c as [rd d clk ex cur tr]; simpl. intros ->.
  unfold remove, synchronised, transactional, closing, _do_delete, execute,
    record, close_old_connections; simpl.
  now rewrite <- !app_assoc.
Qed.

Lemma update_absent c :
  db c = None -> fst (update env c) = Raise ProgrammingError.
Proof.
  destruct c as [rd d clk ex cur tr]; simpl. intros ->. reflexivity.
Qed.

Lemma update_addresses_raise c t e :
  db c = Some t -> _get_addresses env = Raise e -> fst (update env c) = Raise e.
Proof.
  destruct c as [rd d clk ex cur tr]; simpl. intros -> He.
  unfold update, synchronised, transactional, closing, bind, _do_delete,
    _do_insert, execute, raise; simpl. now rewrite He.
Qed.

Lemma read_values inet (pairs : list (string * Z)) :
  read inet (insert_values self pairs)
    = insert_values self <$> read_pairs inet pairs.
Proof.
  unfold insert_values. induction pairs as [|[a p] pairs IH]; [reflexivity|].
  rewrite fmap_cons. simpl. destruct (inet a) as [a'|]; [|reflexivity].
  destruct (decide (integer p)); [|reflexivity].
  rewrite IH. destruct (read_pairs inet pairs); reflexivity.
Qed.

Lemma update_inserted c t pairs cpairs rs :
  db c = Some t ->
  _get_addresses env = Return pairs ->
  read_pairs (inet c) pairs = Some cpairs ->
  insert (clock c) (insert_values self cpairs)
         (filter (fun r => name r <> self) (rows t)) = Some rs ->
  update env c =
    (Return tt,
     Connection (inet c)
       (Some (Table (filter (fun r => ~ stale (clock c) r) rs)
                    (eventloops_name_idx t)))
       (clock c) false []
       (trace c ++ [Begin] ++ update_statements self pairs (exclusive c) ++ [Commit])).
Proof.
  destruct c as [rd d clk ex cur tr]; simpl. intros -> Ha Hr Hi.
  unfold update, synchronised, transactional, closing, bind, _do_delete,
    _do_insert, _do_collect, execute, ret, record, close_old_connections,
    update_statements; simpl.
  rewrite Ha.
  destruct (decide (length (insert_values self pairs) <> 0%nat)) as [Hne|He]; simpl.
  - rewrite read_values, Hr. simpl. rewrite Hi. simpl. now rewrite <- !app_assoc.
  - destruct pairs; [|now destruct He].
    simpl in Hr. injection Hr as <-. simpl in Hi. injection Hi as <-.
    simpl. now rewrite <- !app_assoc.
Qed.

Lemma update_rejected c t pairs cpairs :
  db c = Some t ->
  _get_addresses env = Return pairs ->
  read_pairs (inet c) pairs = Some cpairs ->
  insert (clock c) (insert_values self cpairs)
         (filter (fun r => name r <> self) (rows t)) = None ->
  update env c =
    (Raise IntegrityError,
     Connection (inet c) (Some t) (clock c) false [] (refused_trace self pairs c)).
Proof.
  destruct c as [rd d clk ex cur tr]; simpl. intros -> Ha Hr Hi.
  unfold update, synchronised, transactional, closing, bind, _do_delete,
    _do_insert, _do_collect, execute, ret, record, close_old_connections,
    refused_trace; simpl.
  rewrite Ha.
  destruct (decide (length (insert_values self pairs) <> 0%nat)) as [Hne|He]; simpl.
  - rewrite read_values, Hr. simpl. rewrite Hi. simpl. now rewrite <- !app_assoc.
  - destruct pairs; [|now destruct He].
    simpl in Hr. injection Hr as <-. discriminate.
Qed.

Lemma update_unreadable c t pairs :
  db c = Some t ->
  _get_addresses env = Return pairs ->
  read_pairs (inet c) pairs = None ->
  update env c =
    (Raise DataError,
     Connection (inet c) (Some t) (clock c) false [] (refused_trace self pairs c)).
Proof.
  destruct c as [rd d clk ex cur tr]; simpl. intros -> Ha Hr.
  unfold update, synchronised, transactional, closing, bind, _do_delete,
    _do_insert, _do_collect, execute, ret, record, close_old_connections,
    refused_trace; simpl.
  rewrite Ha.
  destruct (decide (length (insert_values self pairs) <> 0%nat)) as [Hne|He]; simpl.
  - rewrite read_values, Hr. simpl. now rewrite <- !app_assoc.
  - destruct pairs; [discriminate|now destruct He].
Qed.

(** What a successful [update] started from. *)
Lemma update_returns c c' :
  update env c = (Return tt, c') ->
  exists t pairs cpairs rs,
    db c = Some t /\ _get_addresses env = Return pairs /\
    read_pairs (inet c) pairs = Some cpairs /\
    insert (clock c) (insert_values self cpairs)
           (filter (fun r => name r <> self) (rows t)) = Some rs.
Proof.
  intros H. destruct (db c) as [t|] eqn:Hd.
  - destruct (_get_addresses env) as [pairs|e] eqn:Ha.
    + destruct (read_pairs (inet c) pairs) as [cpairs|] eqn:Hr.
      * destruct (insert (clock c) (insert_values self cpairs)
                    (filter (fun r => name r <> self) (rows t))) as [rs|] eqn:Hi.
        -- now exists t, pairs, cpairs, rs.
        -- rewrite (update_rejected c t pairs cpairs Hd Ha Hr Hi) in H. discriminate.
      * rewrite (update_unreadable c t pairs Hd Ha Hr) in H. discriminate.
    + pose proof (update_addresses_raise c t e Hd Ha) as Hr.
      rewrite H in Hr. discriminate.
  - pose proof (update_absent c Hd) as Hr. rewrite H in Hr. discriminate.
Qed.

End Operations.

Section Schema.
Import Sql RegionAdvertisingService.

Lemma prepare_runs c :
  prepare c =
    (Return tt,
     Connection (inet c) (Some (Table (rows_of (db c)) true)) (clock c) false []
       (trace c ++ [Begin] ++ prepare_statements (indexed (db c)) (exclusive c)
                ++ [Commit])).
Proof.
  destruct c as [rd [[rs [|]]|] clk ex cur tr]; lazy -[app];
    rewrite <- ?app_assoc; reflexivity.
Qed.

Lemma dump_db c : db (snd (dump c)) = db c.
Proof.
  destruct c as [rd d clk ex cur tr].
  unfold dump, synchronised, transactional, closing, bind, _do_select,
    execute, fetchall, record, close_old_connections.
  destruct d as [t|]; reflexivity.
Qed.

Lemma dump_present c t :
  db c = Some t -> fst (dump c) = Return (select_tuple <$> rows t).
Proof.
  destruct c as [rd d clk ex cur tr]; simpl. intros ->. reflexivity.
Qed.

Lemma update_raise_db env c e c' :
  update env c = (Raise e, c') -> db c' = db c.
Proof. apply transactional_raise. Qed.

Lemma update_unique env c :
  unique (db c) -> unique (db (snd (update env c))).
Proof.
  intros Hu. destruct (update env c) as [[[]|e] c'] eqn:Hup; simpl.
  - destruct (update_returns env c c' Hup) as (t & pairs & cpairs & rs & Hd & Ha & Hrd & Hi).
    rewrite (update_inserted env c t pairs cpairs rs Hd Ha Hrd Hi) in Hup.
    injection Hup as <-. simpl.
    rewrite Hd in Hu. destruct Hu as [Hk _].
    assert (NoDup (key <$> filter (fun r => ~ stale (clock c) r) rs)) as Hnd.
    { apply NoDup_key_filter. eapply insert_NoDup; [|exact Hi].
      now apply NoDup_key_filter. }
    split; [exact Hnd | now apply NoDup_key_triple].
  - now rewrite (update_raise_db env c e c' Hup).
Qed.

Lemma remove_unique env c :
  unique (db c) -> unique (db (snd (remove env c))).
Proof.
  intros Hu. destruct (db c) as [t|] eqn:Hd.
  - rewrite (remove_present env c t Hd). simpl. destruct Hu as [Hk _].
    assert (NoDup (key <$> filter (fun r => name r <> loop_name env) (rows t))) as Hnd
      by now apply NoDup_key_filter.
    split; [exact Hnd | now apply NoDup_key_triple].
  - now rewrite (remove_absent env c Hd).
Qed.

Lemma reachable_unique c : reachable c -> unique (db c).
Proof.
  induction 1 as [rd now|c now _ IH|env c now _ IH|env c now _ IH|c now _ IH].
  - exact I.
  - rewrite prepare_runs. simpl. destruct (db c) as [t|]; simpl.
    + destruct IH as [Hk Ht]. now split.
    + split; constructor.
  - apply update_unique. exact IH.
  - apply remove_unique. exact IH.
  - rewrite dump_db. exact IH.
Qed.

End Schema.

(** ** The advertising cycle *)

Section Cycle.
Import Sql RegionAdvertisingService.

Lemma insert_values_length self pairs :
  length (insert_values self pairs) = length pairs.
Proof. unfold insert_values. apply length_fmap. Qed.

Lemma update_statements_cases self pairs held :
  update_statements self pairs held =
    [Execute (_delete_statement self) held]
    ++ match pairs with
       | [] => []
       | _ :: _ => [Execute (_insert_statement (insert_values self pairs)) held]
       end
    ++ [Execute _collect_statement held].
Proof. destruct pairs; reflexivity. Qed.

Lemma insert_values_spelled self (pairs : list (string * Z)) :
  insert_values self pairs = (fun ap => (self, ap.1, ap.2)) <$> pairs.
Proof.
  unfold insert_values. induction pairs as [|[a p] pairs IH]; [reflexivity|].
  rewrite !fmap_cons, IH. reflexivity.
Qed.

Lemma new_rows_spelled self now (cpairs : list (string * Z)) :
  new_row now <$> insert_values self cpairs
    = (fun cp => Row self cp.1 cp.2 now) <$> cpairs.
Proof.
  unfold insert_values. induction cpairs as [|[a p] cpairs IH]; [reflexivity|].
  rewrite !fmap_cons, IH. reflexivity.
Qed.

Lemma read_pairs_Forall2 inet (pairs : list (string * Z)) : forall cpairs,
  read_pairs inet pairs = Some cpairs ->
  Forall2 (fun ap cp => inet ap.1 = Some cp.1 /\ cp.2 = ap.2 /\ integer ap.2)
          pairs cpairs.
Proof.
  induction pairs as [|[a p] pairs IH]; simpl; intros cpairs Hr.
  - injection Hr as <-. constructor.
  - destruct (inet a) as [a'|] eqn:Ha; [|discriminate].
    destruct (decide (integer p)) as [Hp|]; [|discriminate].
    destruct (read_pairs inet pairs) as [out|]; [|discriminate].
    injection Hr as <-.
    constructor; [simpl; split; [exact Ha | split; [reflexivity | exact Hp]]|].
    now apply IH.
Qed.

Lemma kept_spelled self now (rs : list row) :
  filter (fun r => ~ stale now r) (filter (fun r => name r <> self) rs)
    = filter (fun r => name r <> self /\ ~ updated r < now - 300) rs.
Proof.
  rewrite list_filter_filter. apply list_filter_iff.
  intros r. unfold stale, minutes. split; intros [H1 H2]; split; try assumption; lia.
Qed.

Lemma filter_all_fresh self now (cpairs : list (string * Z)) :
  filter (fun r => ~ stale now r) ((fun cp => Row self cp.1 cp.2 now) <$> cpairs)
    = (fun cp => Row self cp.1 cp.2 now) <$> cpairs.
Proof.
  induction cpairs as [|cp cpairs IH]; [reflexivity|].
  rewrite fmap_cons, filter_cons_True, IH; [reflexivity|].
  unfold stale, minutes. simpl. lia.
Qed.

(** C1. Every successful [update] is a single transaction that executes,
    in this order: the DELETE of the rows under this process's event-loop
    name, the INSERT of one row per (address, port) pair now advertised
    (no INSERT statement when there is no pair), and the DELETE of stale
    rows. Afterwards the table holds the rows of the other names that are
    not older than five minutes, as they were, and for each advertised pair
    one row with this name, the address as the server reads it, the port,
    and the time of the transaction; it holds nothing else. *)
Theorem update_refreshes_then_sweeps env c c' :
  update env c = (Return tt, c') ->
  exists t pairs cpairs,
    let self := loop_name env in
    db c = Some t /\
    _get_addresses env = Return pairs /\
    Forall2 (fun ap cp => inet c ap.1 = Some cp.1 /\ cp.2 = ap.2) pairs cpairs /\
    trace c' =
      trace c
      ++ [Begin; Execute (_delete_statement self) (exclusive c)]
      ++ match pairs with
         | [] => []
         | _ :: _ =>
             [Execute (_insert_statement ((fun ap => (self, ap.1, ap.2)) <$> pairs))
                      (exclusive c)]
         end
      ++ [Execute _collect_statement (exclusive c); Commit] /\
    rows_of (db c') ≡ₚ
      filter (fun r => name r <> self /\ ~ updated r < clock c - 300) (rows t)
      ++ ((fun cp => Row self cp.1 cp.2 (clock c)) <$> cpairs) /\
    (forall r,
        r ∈ rows_of (db c') <->
        (r ∈ rows t /\ name r <> self /\ ~ updated r < clock c - 300) \/
        (exists cp, cp ∈ cpairs /\ r = Row self cp.1 cp.2 (clock c))).
Proof.
  intros Hup.
  destruct (update_returns env c c' Hup)
    as (t & pairs & cpairs & rs & Hd & Ha & Hrd & Hi).
  exists t, pairs, cpairs. cbv zeta. split; [exact Hd|]. split; [exact Ha|].
  split.
  { eapply Forall2_impl; [apply (read_pairs_Forall2 _ _ _ Hrd)|].
    intros ap cp (H1 & H2 & _). now split. }
  rewrite (update_inserted env c t pairs cpairs rs Hd Ha Hrd Hi) in Hup.
  rewrite update_statements_cases, insert_values_spelled in Hup.
  injection Hup as <-. cbn [trace db rows_of rows].
  assert (filter (fun r => ~ stale (clock c) r) rs
          = filter (fun r => name r <> loop_name env /\ ~ updated r < clock c - 300)
              (rows t)
            ++ ((fun cp => Row (loop_name env) cp.1 cp.2 (clock c)) <$> cpairs))
    as Hrows.
  { rewrite (insert_app _ _ _ _ Hi), filter_app, kept_spelled, new_rows_spelled.
    f_equal. apply filter_all_fresh. }
  split; [now rewrite <- !app_assoc|]. split; [now rewrite Hrows|].
  intros r. rewrite Hrows, elem_of_app, list_elem_of_filter, list_elem_of_fmap.
  split.
  - intros [(H1 & H2)|(cp & -> & Hcp)]; [left; tauto | right; eauto].
  - intros [(H1 & H2 & H3)|(cp & Hcp & ->)]; [left; tauto | right; eauto].
Qed.

Lemma update_refreshes_then_sweeps_witness :
  update Example.env (Example.conn 1000)
    = (Return tt, snd (update Example.env (Example.conn 1000))) /\
  trace (snd (update Example.env (Example.conn 1000))) =
    [Begin; Execute (_delete_statement "regiond-1") false;
     Execute (_insert_statement [("regiond-1"%string, "10.0.0.5"%string, 4321)]) false;
     Execute _collect_statement false; Commit] /\
  Row "regiond-1" "10.0.0.5" 4321 1000
    ∈ rows_of (db (snd (update Example.env (Example.conn 1000)))).
Proof.
  split; [vm_compute; reflexivity|].
  destruct (update_refreshes_then_sweeps Example.env (Example.conn 1000)
              (snd (update Example.env (Example.conn 1000))))
    as (t & pairs & cpairs & _ & Ha & Hf & Htr & _ & Hin);
    [vm_compute; reflexivity|].
  vm_compute in Ha. injection Ha as <-. split; [exact Htr|].
  apply Hin. right. inversion Hf as [|ap cp ps cps [Hcp Hp] Hnil]; subst.
  inversion Hnil; subst. exists cp. split; [apply list_elem_of_here|].
  destruct cp as [a p]. simpl in *. vm_compute in Hcp. injection Hcp as <-.
  subst p. reflexivity.
Defined.

(** C3. The sweep deletes exactly the rows whose [updated] is more than
    five minutes (300 seconds) before the current time, whoever owns them:
    a row refreshed six minutes ago goes, a row refreshed one minute ago
    stays. It is the last statement of every successful [update], after
    which no row of the table is stale. *)
Theorem collect_deletes_exactly_the_stale_rows c t :
  db c = Some t ->
  exists c',
    _do_collect c = (Return tt, c') /\
    (forall r, r ∈ rows_of (db c') <-> r ∈ rows t /\ ~ updated r < clock c - 300) /\
    (forall r, r ∈ rows t -> updated r = clock c - minutes 6 -> r ∉ rows_of (db c')) /\
    (forall r, r ∈ rows t -> updated r = clock c - minutes 1 -> r ∈ rows_of (db c')) /\
    (forall env c1,
        update env c = (Return tt, c1) ->
        (exists before,
            trace c1 = before ++ [Execute _collect_statement (exclusive c); Commit]) /\
        (forall r, r ∈ rows_of (db c1) -> ~ updated r < clock c - 300)).
Proof.
  intros Hd.
  assert (forall now r, stale now r <-> updated r < now - 300) as Hst
    by (intros; unfold stale, minutes; lia).
  exists (Connection (inet c)
            (Some (Table (filter (fun r => ~ stale (clock c) r) (rows t))
                         (eventloops_name_idx t)))
            (clock c) (exclusive c) []
            (trace c ++ [Execute _collect_statement (exclusive c)])).
  split.
  { unfold _do_collect, execute. simpl. now rewrite Hd. }
  simpl. split; [|split; [|split]].
  - intros r. rewrite list_elem_of_filter, Hst. tauto.
  - intros r _ Hu Hin. apply list_elem_of_filter in Hin as [Hn _].
    apply Hn. unfold stale, minutes in *. lia.
  - intros r Hin Hu. apply list_elem_of_filter. split; [|exact Hin].
    unfold stale, minutes in *. lia.
  - intros env c1 Hup.
    destruct (update_returns env c c1 Hup)
      as (t' & pairs & cpairs & rs & Hd' & Ha & Hrd & Hi).
    rewrite (update_inserted env c t' pairs cpairs rs Hd' Ha Hrd Hi) in Hup.
    injection Hup as <-. cbn [trace db rows_of rows]. split.
    + exists (trace c ++ [Begin]
              ++ removelast (update_statements (loop_name env) pairs (exclusive c))).
      rewrite update_statements_cases.
      destruct pairs; simpl; rewrite <- ?app_assoc; reflexivity.
    + intros r Hin. apply list_elem_of_filter in Hin as [Hn _].
      now rewrite <- Hst.
Qed.

Lemma collect_deletes_exactly_the_stale_rows_witness :
  db (Example.conn 360) = Some (Table [Example.peer; Example.own] true) /\
  exists c',
    _do_collect (Example.conn 360) = (Return tt, c') /\
    Example.peer ∉ rows_of (db c').
Proof.
  split; [reflexivity|].
  destruct (collect_deletes_exactly_the_stale_rows (Example.conn 360)
              (Table [Example.peer; Example.own] true) eq_refl)
    as (c' & Hc & _ & Hsix & _).
  exists c'. split; [exact Hc|].
  apply Hsix; [apply list_elem_of_here | reflexivity].
Defined.

End Cycle.

(** ** Ownership and the constraints *)

Section Ownership.
Import Sql RegionAdvertisingService.

Lemma _do_delete_present env c t :
  db c = Some t ->
  _do_delete env c =
    (Return tt,
     Connection (inet c)
       (Some (Table (filter (fun r => name r <> loop_name env) (rows t))
                    (eventloops_name_idx t)))
       (clock c) (exclusive c) []
       (trace c ++ [Execute (_delete_statement (loop_name env)) (exclusive c)])).
Proof. intros Hd. unfold _do_delete, execute. simpl. now rewrite Hd. Qed.

(** C10. [remove], and the DELETE with which [update] begins, delete the
    rows whose name is this process's event-loop name and nothing else:
    the rows of every other name are what they were, in every column. *)
Theorem remove_leaves_other_names_alone env c t :
  db c = Some t ->
  exists c' c'',
    remove env c = (Return tt, c') /\
    _do_delete env c = (Return tt, c'') /\
    rows_of (db c'') = rows_of (db c') /\
    (forall r, r ∈ rows_of (db c') <-> r ∈ rows t /\ name r <> loop_name env) /\
    filter (fun r => name r <> loop_name env) (rows_of (db c'))
      = filter (fun r => name r <> loop_name env) (rows t) /\
    indexed (db c') = eventloops_name_idx t.
Proof.
  intros Hd. eexists. eexists.
  split; [apply (remove_present env c t Hd)|].
  split; [apply (_do_delete_present env c t Hd)|].
  simpl. split; [reflexivity|]. split; [|split; [|reflexivity]].
  - intros r. rewrite list_elem_of_filter. tauto.
  - apply list_filter_filter_l. tauto.
Qed.

Lemma remove_leaves_other_names_alone_witness :
  db (Example.conn 0) = Some (Table [Example.peer; Example.own] true) /\
  exists c',
    remove Example.env (Example.conn 0) = (Return tt, c') /\
    rows_of (db c') = [Example.peer].
Proof.
  split; [reflexivity|].
  destruct (remove_leaves_other_names_alone Example.env (Example.conn 0)
              (Table [Example.peer; Example.own] true) eq_refl)
    as (c' & _ & Hr & _).
  exists c'. split; [exact Hr|].
  vm_compute in Hr. injection Hr as <-. reflexivity.
Defined.

(** C2. In every state of the table that the four operations can reach,
    no two rows share (address, port) and no two share (name, address,
    port). An [update] that raises leaves the table as it found it, and an
    [update] whose INSERT, its values read by the server, meets a row of
    another name with the same (address, port) raises the constraint
    violation. *)
Theorem rows_stay_unique_and_failed_update_rolls_back c :
  reachable c ->
  unique (db c) /\
  (forall env now e c',
      update env (at_time now c) = (Raise e, c') -> db c' = db c) /\
  (forall env now t pairs cpairs,
      db c = Some t ->
      _get_addresses env = Return pairs ->
      read_pairs (inet c) pairs = Some cpairs ->
      insert now (insert_values (loop_name env) cpairs)
             (filter (fun r => name r <> loop_name env) (rows t)) = None ->
      exists c', update env (at_time now c) = (Raise IntegrityError, c') /\
                 db c' = db c) /\
  (forall env now t pairs cpairs addr port r,
      db c = Some t ->
      _get_addresses env = Return pairs ->
      read_pairs (inet c) pairs = Some cpairs ->
      (addr, port) ∈ cpairs ->
      r ∈ rows t -> name r <> loop_name env -> key r = (addr, port) ->
      exists c', update env (at_time now c) = (Raise IntegrityError, c') /\
                 db c' = db c).
Proof.
  intros Hr. split; [now apply reachable_unique|].
  assert (forall env now t pairs cpairs,
      db c = Some t ->
      _get_addresses env = Return pairs ->
      read_pairs (inet c) pairs = Some cpairs ->
      insert now (insert_values (loop_name env) cpairs)
             (filter (fun r => name r <> loop_name env) (rows t)) = None ->
      exists c', update env (at_time now c) = (Raise IntegrityError, c') /\
                 db c' = db c) as Hrej.
  { intros env now t pairs cpairs Hd Ha Hrd Hi. eexists. split.
    - apply (update_rejected env (at_time now c) t pairs cpairs Hd Ha Hrd Hi).
    - simpl. now rewrite Hd. }
  split; [|split; [exact Hrej|]].
  - intros env now e c' Hup. apply update_raise_db in Hup. exact Hup.
  - intros env now t pairs cpairs addr port r Hd Ha Hrd Hin Hrow Hname Hkey.
    apply (Hrej env now t pairs cpairs Hd Ha Hrd).
    apply (insert_conflict now _ _ (loop_name env, addr, port)).
    + unfold insert_values. apply list_elem_of_fmap. now exists (addr, port).
    + replace (key (new_row now (loop_name env, addr, port))) with (key r)
        by (rewrite Hkey; reflexivity).
      apply list_elem_of_fmap. exists r. split; [reflexivity|].
      apply list_elem_of_filter. now split.
Qed.

Lemma rows_stay_unique_and_failed_update_rolls_back_witness :
  reachable Example.advertised /\
  unique (db Example.advertised) /\
  exists c',
    update Example.env_rival (at_time 20 Example.advertised)
      = (Raise IntegrityError, c') /\
    db c' = db Example.advertised.
Proof.
  assert (reachable Example.advertised) as Hr
    by (apply reach_update, reach_prepare, reach_fresh).
  split; [exact Hr|].
  destruct (rows_stay_unique_and_failed_update_rolls_back Example.advertised Hr)
    as (Hu & _ & _ & Hc).
  split; [exact Hu|].
  apply (Hc Example.env_rival 20
            (Table [Row "regiond-1" "10.0.0.5" 4321 10] true)
            [("10.0.0.5"%string, 4321)] [("10.0.0.5"%string, 4321)]
            "10.0.0.5"%string 4321
            (Row "regiond-1" "10.0.0.5" 4321 10)).
  - vm_compute. reflexivity.
  - vm_compute. reflexivity.
  - vm_compute. reflexivity.
  - apply list_elem_of_here.
  - apply list_elem_of_here.
  - discriminate.
  - reflexivity.
Defined.

End Ownership.

(** ** Preparing the schema *)

Section Prepare.
Import Sql RegionAdvertisingService.

(** C9. [prepare] succeeds on any database. It creates the table only
    when it is absent (the rows of an existing table are kept), takes the
    exclusive table lock, and with the lock held checks for the index on
    [name]; CREATE INDEX is executed exactly when that check returns no
    row. A second [prepare] therefore executes no CREATE INDEX, raises
    nothing, and leaves the database as the first one left it. *)
Theorem prepare_creates_the_index_once c :
  exists c1 c2 found,
    prepare c = (Return tt, c1) /\
    db c1 = Some (Table (rows_of (db c)) true) /\
    Sql.run (inet c) (clock c) _create_index_check_statement (db c) = Return (db c, found) /\
    trace c1 =
      trace c
      ++ [Begin;
          Execute _create_statement (exclusive c);
          Execute _create_lock_statement (exclusive c);
          Execute _create_index_check_statement true]
      ++ match found with
         | [] => [Execute _create_index_statement true]
         | _ :: _ => []
         end
      ++ [Commit] /\
    prepare c1 = (Return tt, c2) /\
    db c2 = db c1 /\
    trace c2 =
      trace c1
      ++ [Begin;
          Execute _create_statement false;
          Execute _create_lock_statement false;
          Execute _create_index_check_statement true;
          Commit].
Proof.
  eexists. eexists.
  exists (if indexed (db c) then [[Int 1]] else []).
  split; [apply prepare_runs|]. simpl. split; [reflexivity|]. split.
  { destruct (db c) as [[rs [|]]|]; reflexivity. }
  split.
  { destruct (db c) as [[rs [|]]|]; simpl; rewrite <- ?app_assoc; reflexivity. }
  split; [apply prepare_runs|]. simpl. split; [reflexivity|].
  rewrite <- ?app_assoc. reflexivity.
Qed.

End Prepare.

(** ** Repeated and empty cycles *)

Section Filters.
Context {A : Type} (P : A -> Prop) `{forall x, Decision (P x)}.

Lemma filter_all (l : list A) : (forall x, x ∈ l -> P x) -> filter P l = l.
Proof.
  induction l as [|x l IH]; intros Hall; [reflexivity|].
  rewrite filter_cons_True by (apply Hall, list_elem_of_here).
  f_equal. apply IH. intros y Hy. apply Hall. now apply list_elem_of_further.
Qed.

Lemma filter_none (l : list A) : (forall x, x ∈ l -> ~ P x) -> filter P l = [].
Proof.
  induction l as [|x l IH]; intros Hall; [reflexivity|].
  rewrite filter_cons_False by (apply Hall, list_elem_of_here).
  apply IH. intros y Hy. apply Hall. now apply list_elem_of_further.
Qed.
End Filters.

Lemma NoDup_fmap_factor {A B C} (f : A -> B) (g : A -> C) (l : list A) :
  (forall x y, g x = g y -> f x = f y) -> NoDup (f <$> l) -> NoDup (g <$> l).
Proof.
  intros Hfg. induction l as [|x l IH]; simpl; intros Hnd; [constructor|].
  apply NoDup_cons in Hnd as [Hnotin Hnd]. apply NoDup_cons. split; [|now apply IH].
  intros Hin. apply Hnotin. apply list_elem_of_fmap in Hin as (y & Heq & Hy).
  apply list_elem_of_fmap. exists y. split; [now apply Hfg | exact Hy].
Qed.

Section Repeat.
Import Sql RegionAdvertisingService.

Lemma new_row_name self pairs now r :
  r ∈ new_row now <$> insert_values self pairs -> name r = self.
Proof.
  intros Hin. apply list_elem_of_fmap in Hin as (v & -> & Hv).
  apply list_elem_of_fmap in Hv as ([addr port] & -> & _). reflexivity.
Qed.

Lemma new_row_fresh now v : ~ stale now (new_row now v).
Proof. destruct v as [[vn va] vp]. unfold stale, minutes. simpl. lia. Qed.

Lemma new_row_tuple now now' (vals : list (string * string * Z)) :
  select_tuple <$> (new_row now <$> vals) = select_tuple <$> (new_row now' <$> vals).
Proof.
  induction vals as [|[[vn va] vp] vals IH]; [reflexivity|].
  rewrite !fmap_cons, IH. reflexivity.
Qed.

(** The rows one INSERT adds have keys that differ from one another and
    from every key that was there. *)
Lemma insert_new_keys now vals : forall rs out,
  insert now vals rs = Some out ->
  NoDup (key <$> (new_row now <$> vals)) /\
  (forall k, k ∈ key <$> (new_row now <$> vals) -> k ∉ key <$> rs).
Proof.
  induction vals as [|v vals IH]; simpl; intros rs out Hi.
  - split; [constructor|]. intros k Hk. now apply elem_of_nil in Hk.
  - destruct (decide (admissible rs (new_row now v))) as [Ha|]; [|discriminate].
    apply admissible_iff in Ha as [_ Hk].
    destruct (IH _ _ Hi) as [Hnd Hnew]. split.
    + apply NoDup_cons. split; [|exact Hnd].
      intros Hin. apply (Hnew _ Hin). rewrite fmap_app. apply elem_of_app.
      right. apply list_elem_of_here.
    + intros k Hin. apply elem_of_cons in Hin as [->|Hin]; [exact Hk|].
      intros Hrs. apply (Hnew _ Hin). rewrite fmap_app. apply elem_of_app.
      now left.
Qed.

(** The rows of the table after a successful [update]: the other
    processes' rows that are not stale, then this cycle's rows. *)
Lemma update_rows env c t pairs cpairs rs :
  db c = Some t ->
  _get_addresses env = Return pairs ->
  read_pairs (inet c) pairs = Some cpairs ->
  insert (clock c) (insert_values (loop_name env) cpairs)
         (filter (fun r => name r <> loop_name env) (rows t)) = Some rs ->
  rows_of (db (snd (update env c))) =
    filter (fun r => ~ stale (clock c) r)
           (filter (fun r => name r <> loop_name env) (rows t))
    ++ (new_row (clock c) <$> insert_values (loop_name env) cpairs).
Proof.
  intros Hd Ha Hrd Hi.
  rewrite (update_inserted env c t pairs cpairs rs Hd Ha Hrd Hi). simpl.
  rewrite (insert_app _ _ _ _ Hi), filter_app. f_equal.
  apply filter_all. intros r Hin.
  apply list_elem_of_fmap in Hin as (v & -> & _). apply new_row_fresh.
Qed.

Lemma owned_after_update self (others news : list row) :
  (forall r, r ∈ others -> name r <> self) ->
  (forall r, r ∈ news -> name r = self) ->
  filter (fun r => name r = self) (others ++ news) = news /\
  filter (fun r => name r <> self) (others ++ news) = others.
Proof.
  intros Ho Hn. rewrite !filter_app. split.
  - rewrite (filter_none _ others), (filter_all _ news); [reflexivity|exact Hn|].
    intros r Hr Heq. now apply (Ho r Hr).
  - rewrite (filter_all _ others), (filter_none _ news);
      [apply app_nil_r| |exact Ho].
    intros r Hr Hne. now apply Hne, Hn.
Qed.

Lemma read_pairs_spelled inet (pairs cpairs : list (string * Z)) :
  read_pairs inet pairs = Some cpairs ->
  Forall2 (fun ap cp => inet ap.1 = Some cp.1 /\ cp.2 = ap.2) pairs cpairs.
Proof.
  intros Hrd. apply read_pairs_Forall2 in Hrd.
  eapply Forall2_impl; [exact Hrd|]. intros ap cp (Ha & Hp & _). now split.
Qed.

Lemma tuples_of_values self now (pairs : list (string * Z)) :
  select_tuple <$> (new_row now <$> insert_values self pairs)
    = (fun ap => [Text self; Text ap.1; Int ap.2]) <$> pairs.
Proof.
  unfold insert_values. induction pairs as [|[a p] pairs IH]; [reflexivity|].
  rewrite !fmap_cons, IH. reflexivity.
Qed.

(** The rows under its own name that a successful [update] leaves: one for
    each pair, the address as the server reads it. *)
Lemma owned_after env c c' pairs cpairs :
  update env c = (Return tt, c') ->
  _get_addresses env = Return pairs ->
  read_pairs (inet c) pairs = Some cpairs ->
  owned (loop_name env) (db c')
    = (fun cp => [Text (loop_name env); Text cp.1; Int cp.2]) <$> cpairs.
Proof.
  intros Hup Ha Hrd.
  destruct (update_returns env c c' Hup)
    as (t & pairs' & cpairs' & rs & Hd & Ha' & Hrd' & Hi).
  rewrite Ha in Ha'. injection Ha' as <-.
  rewrite Hrd in Hrd'. injection Hrd' as <-.
  pose proof (update_rows env c t pairs cpairs rs Hd Ha Hrd Hi) as Hrows.
  rewrite Hup in Hrows. simpl in Hrows. unfold owned. rewrite Hrows.
  destruct (owned_after_update (loop_name env)
              (filter (fun r => ~ stale (clock c) r)
                 (filter (fun r => name r <> loop_name env) (rows t)))
              (new_row (clock c) <$> insert_values (loop_name env) cpairs))
    as [Hown _].
  - intros r Hr. apply list_elem_of_filter in Hr as [_ Hr].
    now apply list_elem_of_filter in Hr as [Hr _].
  - intros r. apply new_row_name.
  - rewrite Hown. apply tuples_of_values.
Qed.

End Repeat.

Section Idempotence.
Import Sql RegionAdvertisingService.

Lemma select_tuple_key (x y : row) :
  select_tuple x = select_tuple y -> key x = key y.
Proof. unfold select_tuple, key. intros Heq. injection Heq as _ -> ->. reflexivity. Qed.

Lemma filter_length_all {A} (P : A -> Prop) `{forall x, Decision (P x)} (l : list A) :
  length (filter P l) = length l -> forall x, x ∈ l -> P x.
Proof.
  induction l as [|x l IH]; intros Hlen y Hy.
  - now apply elem_of_nil in Hy.
  - rewrite filter_cons in Hlen. destruct (decide (P x)) as [Hx|Hx].
    + simpl in Hlen. apply elem_of_cons in Hy as [->|Hy]; [exact Hx|].
      apply IH; [lia | exact Hy].
    + pose proof (length_filter P l). simpl in Hlen. lia.
Qed.

Lemma read_pairs_length inet pairs : forall cpairs,
  read_pairs inet pairs = Some cpairs -> length cpairs = length pairs.
Proof.
  induction pairs as [|[a p] pairs IH]; simpl; intros cpairs Hrd.
  - now injection Hrd as <-.
  - destruct (inet a) as [a'|]; [|discriminate].
    destruct (decide (integer p)); [|discriminate].
    destruct (read_pairs inet pairs) as [out|]; [|discriminate].
    injection Hrd as <-. simpl. f_equal. now apply IH.
Qed.

(** C4, as the code has it. When an [update] has succeeded, the next
    [update] of the same process with the same addresses and port succeeds
    too, and this process's rows read the same after both, whatever the
    order: one (name, address, port) per advertised pair, none twice. The
    whole table reads the same after both, whatever the order, if and only
    if no row of another process that the first call left has become stale
    by the time of the second call, as when the second call does not read a
    later time; the second sweep removes such a row and keeps every other
    row of another process. *)
Theorem update_twice_keeps_own_rows env c now1 now2 c1 :
  update env (at_time now1 c) = (Return tt, c1) ->
  exists c2 pairs tuples1 tuples2,
    update env (at_time now2 c1) = (Return tt, c2) /\
    _get_addresses env = Return pairs /\
    fst (dump c1) = Return tuples1 /\
    fst (dump c2) = Return tuples2 /\
    owned (loop_name env) (db c2) ≡ₚ owned (loop_name env) (db c1) /\
    length (owned (loop_name env) (db c2)) = length pairs /\
    NoDup (owned (loop_name env) (db c2)) /\
    (tuples2 ≡ₚ tuples1 <->
     forall r, r ∈ rows_of (db c1) -> name r <> loop_name env ->
               ~ updated r < now2 - 300) /\
    (forall r, r ∈ rows_of (db c1) -> name r <> loop_name env ->
               (r ∈ rows_of (db c2) <-> ~ updated r < now2 - 300)) /\
    (now2 <= now1 -> tuples2 ≡ₚ tuples1).
Proof.
  intros Hup.
  destruct (update_returns env _ c1 Hup)
    as (t & pairs & cpairs & rs & Hd & Ha & Hrd & Hi).
  set (self := loop_name env) in *.
  set (values := insert_values self cpairs) in *.
  set (others := filter (fun r => name r <> self) (rows t)) in *.
  set (O1 := filter (fun r => ~ stale now1 r) others).
  pose proof (update_rows env _ t pairs cpairs rs Hd Ha Hrd Hi) as Hrows1.
  rewrite Hup in Hrows1. simpl in Hrows1. fold self values others O1 in Hrows1.
  assert (inet c1 = inet c /\ exists t1, db c1 = Some t1) as [Hinet [t1 Hd1]].
  { rewrite (update_inserted env _ t pairs cpairs rs Hd Ha Hrd Hi) in Hup.
    injection Hup as <-. simpl. eauto. }
  rewrite Hd1 in Hrows1. simpl in Hrows1.
  assert (forall r, r ∈ O1 -> name r <> self) as HO1.
  { intros r Hr. apply list_elem_of_filter in Hr as [_ Hr].
    apply list_elem_of_filter in Hr as [Hr _]. exact Hr. }
  assert (forall now r, r ∈ new_row now <$> values -> name r = self) as HN
    by (intros now r; apply new_row_name).
  destruct (owned_after_update self O1 (new_row now1 <$> values) HO1 (HN now1))
    as [Hown1 Hoth1].
  assert (insert now2 values O1 = Some (O1 ++ (new_row now2 <$> values))) as Hi2.
  { apply (insert_mono now1 now2 values others O1 rs Hi).
    intros k. apply key_filter. }
  assert (db (at_time now2 c1) = Some t1) as Hd1' by exact Hd1.
  assert (read_pairs (inet (at_time now2 c1)) pairs = Some cpairs) as Hrd'.
  { simpl. rewrite Hinet. exact Hrd. }
  assert (insert (clock (at_time now2 c1)) (insert_values (loop_name env) cpairs)
            (filter (fun r => name r <> loop_name env) (rows t1))
          = Some (O1 ++ (new_row now2 <$> values))) as Hi2'.
  { simpl. fold self values. rewrite Hrows1, Hoth1. exact Hi2. }
  pose proof (update_rows env _ t1 pairs cpairs _ Hd1' Ha Hrd' Hi2') as Hrows2.
  pose proof (update_inserted env _ t1 pairs cpairs _ Hd1' Ha Hrd' Hi2') as Hup2.
  simpl in Hrows2. fold self values in Hrows2. rewrite Hrows1, Hoth1 in Hrows2.
  set (c2 := snd (update env (at_time now2 c1))) in *.
  assert (exists t2, db c2 = Some t2) as [t2 Hd2].
  { subst c2. rewrite Hup2. simpl. eauto. }
  set (O2 := filter (fun r => ~ stale now2 r) O1) in *.
  exists c2, pairs, (select_tuple <$> rows t1), (select_tuple <$> rows t2).
  assert (forall r, r ∈ O2 -> name r <> self) as HO2.
  { intros r Hr. apply list_elem_of_filter in Hr as [_ Hr]. now apply HO1. }
  destruct (owned_after_update self _ (new_row now2 <$> values) HO2 (HN now2))
    as [Hown2 _].
  assert (owned self (db c2) = select_tuple <$> (new_row now2 <$> values)) as Ho2.
  { unfold owned. rewrite Hrows2, Hown2. reflexivity. }
  assert (owned self (db c1) = select_tuple <$> (new_row now1 <$> values)) as Ho1.
  { unfold owned. rewrite Hd1. simpl. rewrite Hrows1, Hown1. reflexivity. }
  rewrite Hd2 in Hrows2. simpl in Hrows2.
  assert ((forall r, r ∈ rows_of (db c1) -> name r <> self ->
                     ~ updated r < now2 - 300) ->
          select_tuple <$> rows t2 = select_tuple <$> rows t1) as Hsame.
  { intros Hfresh. rewrite Hrows2, Hrows1. unfold O2.
    rewrite (filter_all _ O1).
    - rewrite !fmap_app. f_equal. apply new_row_tuple.
    - intros r Hr. apply Hfresh; [|now apply HO1].
      rewrite Hd1. simpl. rewrite Hrows1. apply elem_of_app. now left. }
  assert (forall r, r ∈ rows_of (db c1) -> name r <> self -> r ∈ O1) as Hother.
  { intros r Hr Hne. rewrite Hd1 in Hr. simpl in Hr. rewrite Hrows1 in Hr.
    apply elem_of_app in Hr as [Hr|Hr]; [exact Hr|].
    exfalso. now apply Hne, (HN now1). }
  split.
  { subst c2. rewrite Hup2. reflexivity. }
  split; [exact Ha|].
  split; [exact (dump_present c1 t1 Hd1)|].
  split; [exact (dump_present c2 t2 Hd2)|].
  split.
  { rewrite Ho2, Ho1, (new_row_tuple now2 now1). reflexivity. }
  split.
  { rewrite Ho2, !length_fmap. unfold values.
    rewrite insert_values_length. apply (read_pairs_length _ _ _ Hrd). }
  split.
  { rewrite Ho2. apply (NoDup_fmap_factor key select_tuple).
    - apply select_tuple_key.
    - apply (insert_new_keys now2 values O1 _ Hi2). }
  split.
  { split.
    - intros Hperm r Hr Hne. apply Permutation_length in Hperm.
      rewrite Hrows2, Hrows1, !length_fmap, !length_app, !length_fmap in Hperm.
      assert (length O2 = length O1) as Hlen by lia.
      apply (filter_length_all (fun r => ~ stale now2 r) O1 Hlen r).
      now apply Hother.
    - intros Hfresh. now rewrite (Hsame Hfresh). }
  split.
  { intros r Hr Hne. rewrite Hd2. simpl. rewrite Hrows2. split.
    - intros Hin. apply elem_of_app in Hin as [Hin|Hin].
      + apply list_elem_of_filter in Hin as [Hin _]. exact Hin.
      + exfalso. now apply Hne, (HN now2).
    - intros Hfresh. apply elem_of_app. left. apply list_elem_of_filter.
      split; [exact Hfresh | now apply Hother]. }
  intros Hle. rewrite Hsame; [reflexivity|]. intros r Hr Hne Hst.
  apply (Hother r Hr) in Hne. apply list_elem_of_filter in Hne as [Hn _].
  apply Hn. unfold stale, minutes. lia.
Qed.

Lemma update_twice_keeps_own_rows_witness :
  update Example.env (at_time 299 (Example.conn 0))
    = (Return tt, snd (update Example.env (at_time 299 (Example.conn 0)))) /\
  exists c2,
    update Example.env
      (at_time 301 (snd (update Example.env (at_time 299 (Example.conn 0)))))
      = (Return tt, c2) /\
    owned "regiond-1" (db c2) ≡ₚ [[Text "regiond-1"; Text "10.0.0.5"; Int 4321]].
Proof.
  split; [vm_compute; reflexivity|].
  destruct (update_twice_keeps_own_rows Example.env (Example.conn 0) 299 301
              (snd (update Example.env (at_time 299 (Example.conn 0)))))
    as (c2 & pairs & tuples1 & tuples2 & Hup & _ & _ & _ & Hown & _);
    [vm_compute; reflexivity|].
  exists c2. split; [exact Hup|].
  etransitivity; [exact Hown | vm_compute; reflexivity].
Defined.

(** C4 as stated fails: a peer's row written at time 0 is kept by an
    [update] at time 299 and removed by the same [update] at time 301, so
    the table does not read the same after the two calls. *)
Lemma update_twice_differs :
  let c1 := snd (update Example.env (at_time 299 (Example.conn 0))) in
  let c2 := snd (update Example.env (at_time 301 c1)) in
  fst (update Example.env (at_time 299 (Example.conn 0))) = Return tt /\
  fst (update Example.env (at_time 301 c1)) = Return tt /\
  fst (dump c1) =
    Return [[Text "regiond-2"; Text "10.0.0.9"; Int 4321];
            [Text "regiond-1"; Text "10.0.0.5"; Int 4321]] /\
  fst (dump c2) = Return [[Text "regiond-1"; Text "10.0.0.5"; Int 4321]] /\
  fst (dump c1) <> fst (dump c2).
Proof.
  cbv zeta. repeat split; try (vm_compute; reflexivity).
  vm_compute. discriminate.
Qed.

End Idempotence.

Section Empty.
Import Sql RegionAdvertisingService.

(** C5. When there is nothing to advertise, because no service named
    "rpc" is registered or because its [getPort] returns [None],
    [_get_addresses] yields no pair and [update] on a prepared table
    still runs: it deletes this process's rows, executes no INSERT, sweeps
    the stale rows and commits. No row of this process is left and nothing
    is raised. *)
Theorem update_without_addresses_only_deletes env c t :
  db c = Some t ->
  (services env !! "rpc"%string = None \/
   exists service,
     services env !! "rpc"%string = Some service /\
     RegionService.getPort service = Return None) ->
  _get_addresses env = Return [] /\
  exists c',
    update env c = (Return tt, c') /\
    trace c' =
      trace c ++ [Begin;
                  Execute (_delete_statement (loop_name env)) (exclusive c);
                  Execute _collect_statement (exclusive c);
                  Commit] /\
    rows_of (db c') =
      filter (fun r => ~ stale (clock c) r)
             (filter (fun r => name r <> loop_name env) (rows t)) /\
    owned (loop_name env) (db c') = [].
Proof.
  intros Hd Hno.
  assert (_get_addresses env = Return []) as Ha.
  { unfold _get_addresses, getServiceNamed.
    destruct Hno as [-> | (service & -> & ->)]; reflexivity. }
  split; [exact Ha|].
  assert (insert (clock c) (insert_values (loop_name env) [])
            (filter (fun r => name r <> loop_name env) (rows t))
          = Some (filter (fun r => name r <> loop_name env) (rows t))) as Hi
    by reflexivity.
  eexists. split; [apply (update_inserted env c t [] [] _ Hd Ha eq_refl Hi)|].
  simpl. split; [reflexivity|]. split; [reflexivity|].
  unfold owned. simpl. rewrite filter_none; [reflexivity|].
  intros r Hr. apply list_elem_of_filter in Hr as [_ Hr].
  apply list_elem_of_filter in Hr as [Hr _]. exact Hr.
Qed.

Lemma update_without_addresses_only_deletes_witness :
  db (Example.conn 0) = Some (Table [Example.peer; Example.own] true) /\
  RegionService.getPort Example.binding = Return None /\
  exists c',
    update Example.env_unbound (Example.conn 0) = (Return tt, c') /\
    rows_of (db c') = [Example.peer].
Proof.
  split; [reflexivity|]. split; [reflexivity|].
  destruct (update_without_addresses_only_deletes Example.env_unbound
              (Example.conn 0) (Table [Example.peer; Example.own] true) eq_refl)
    as (_ & c' & Hup & _ & Hrows & _).
  { right. exists Example.binding. split; vm_compute; reflexivity. }
  exists c'. split; [exact Hup|]. rewrite Hrows. vm_compute. reflexivity.
Defined.

End Empty.

(** ** The listener *)

Section Listener.
Import RegionService.

Variable stopListening : Port -> Port * option deferred.

(** The chain [startService] hangs on [starting]. *)
Lemma startService_pending s0 :
  startService None s0 =
    Make true
         (Some (Deferred.Make None false
                  [Deferred.Callback save_port;
                   Deferred.Errback ignore_cancellation;
                   Deferred.Errback log_err]))
         (_port s0) (log s0).
Proof. reflexivity. Qed.

Lemma startService_bound p s0 :
  startService (Some (Return p)) s0 =
    Make true (Some (Deferred.Make (Some (Return (PyPort p))) false []))
         (Some p) (log s0).
Proof. reflexivity. Qed.




Lemma getPort_returns s : exists v, getPort s = Return v.
Proof.
  unfold getPort, _port_socket.
  destruct (_port s) as [[[[[host n]]|]]|]; eauto.
Qed.




End Listener.



Section BoundPort.
Import RegionService.






End BoundPort.

(** ** Starting and stopping the advertising service *)

Section Lifecycle.
Import Sql RegionAdvertisingService.

Lemma lookup_snoc {A} (l : list A) (x : A) : (l ++ [x]) !! length l = Some x.
Proof. now apply list_lookup_middle. Qed.

Lemma insert_snoc {A} (l : list A) (x y : A) :
  <[length l := y]> (l ++ [x]) = l ++ [y].
Proof.
  rewrite insert_app_r_alt by lia. now rewrite Nat.sub_diag.
Qed.

(** The chain [startService] hangs on [starting]. *)
Lemma startService_chain w :
  exists w',
    startService w = (Return (length (deferreds w)), w') /\
    starting w' = Some (length (deferreds w)) /\
    deferreds w' !! length (deferreds w)
      = Some (Deferred.Make None false start_chain) /\
    threads w' = threads w ++ [(Prepare, length (deferreds w))] /\
    conn w' = conn w /\ running w' = running w /\ _loop w' = _loop w.
Proof.
  destruct w as [st sp rn lp ds th c]. eexists. split.
  - unfold startService, deferToThread, addCallbacks, set_deferred. simpl.
    rewrite lookup_snoc. simpl. rewrite insert_snoc, lookup_snoc. simpl.
    rewrite insert_snoc, lookup_snoc. simpl. rewrite insert_snoc. reflexivity.
  - simpl. rewrite lookup_snoc. repeat split; reflexivity.
Qed.

(** Stopping before start-up has finished: the start is cancelled and
    nothing else happens. *)
Lemma stop_while_preparing w s :
  starting w = Some s ->
  deferreds w !! s = Some (Deferred.Make None false start_chain) ->
  stopService w =
    (Return s,
     Make (starting w) (stopping w) (running w) (_loop w)
          (<[s := Deferred.Make (Some (Return PyNone)) true []]> (deferreds w))
          (threads w) (conn w)).
Proof.
  destruct w as [st sp rn lp ds th c]. simpl. intros -> Hd.
  unfold stopService, cancel. simpl. rewrite Hd. reflexivity.
Qed.




(** A thread runs an [update] the timer queued: the loop hears of the
    result, or of the failure. *)
Lemma run_thread_update env now w u rest :
  threads w = (Update, u) :: rest ->
  deferreds w !! u
    = Some (Deferred.Make None false
              [Deferred.Callback loop_returned; Deferred.Errback loop_failed]) ->
  run_thread env now w =
    let '(r, c') := update env (at_time now (conn w)) in
    let w' := Make (starting w) (stopping w) (running w) (_loop w) (deferreds w)
                   rest c' in
    set_deferred u (Deferred.Make (Some (Return PyNone)) false [])
      (snd (match r with
            | Return _ => call loop_returned (Return PyNone) w'
            | Raise e => call loop_failed (Raise e) w'
            end)).
Proof.
  destruct w as [st sp rn lp ds th c]. simpl. intros -> Hd.
  unfold run_thread. cbn [threads conn body inet db exclusive cursor trace].
  fold (at_time now c).
  destruct (update env (at_time now c)) as [[[]|e] c'];
    unfold fire; cbn [deferreds]; rewrite Hd; destruct lp; reflexivity.
Qed.

End Lifecycle.

Section Shutdown.
Import Sql RegionAdvertisingService.








End Shutdown.

(** * Further properties of the table operations *)

Section Reading.
Import Sql RegionAdvertisingService.

Lemma dump_runs c t :
  db c = Some t ->
  dump c =
    (Return (select_tuple <$> rows t),
     Connection (inet c) (Some t) (clock c) false []
       (trace c ++ [Begin; Execute _select_statement (exclusive c); Commit])).
Proof.
  destruct c as [rd d clk ex cur tr]. simpl. intros ->.
  lazy -[app fmap select_tuple]. rewrite <- ?app_assoc. reflexivity.
Qed.

Lemma dump_absent c :
  db c = None ->
  dump c =
    (Raise ProgrammingError,
     Connection (inet c) None (clock c) false []
       (trace c ++ [Begin; Execute _select_statement (exclusive c); Rollback])).
Proof.
  destruct c as [rd d clk ex cur tr]. simpl. intros ->.
  lazy -[app]. rewrite <- ?app_assoc. reflexivity.
Qed.

Lemma select_tuple_elem (rs : list row) n a p :
  [Text n; Text a; Int p] ∈ select_tuple <$> rs <-> exists u, Row n a p u ∈ rs.
Proof.
  rewrite list_elem_of_fmap. split.
  - intros ([n' a' p' u] & Heq & Hin). unfold select_tuple in Heq. simpl in Heq.
    injection Heq as -> -> ->. now exists u.
  - intros [u Hin]. now exists (Row n a p u).
Qed.

(** X1. [dump] on an existing table returns one (name, address, port) per
    row, in the order of the table and without any filter, inside one
    transaction of a single SELECT, and leaves the table as it was. *)
Theorem dump_lists_every_row c t :
  db c = Some t ->
  exists tuples c',
    dump c = (Return tuples, c') /\
    tuples = select_tuple <$> rows t /\
    length tuples = length (rows t) /\
    (forall n a p,
        [Text n; Text a; Int p] ∈ tuples <-> exists u, Row n a p u ∈ rows t) /\
    db c' = db c /\
    trace c' = trace c ++ [Begin; Execute _select_statement (exclusive c); Commit].
Proof.
  intros Hd. eexists. eexists. split; [apply (dump_runs c t Hd)|].
  split; [reflexivity|]. split; [apply length_fmap|].
  split; [intros n a p; apply select_tuple_elem|].
  simpl. split; [now rewrite Hd | reflexivity].
Qed.

Lemma dump_lists_every_row_witness :
  db (Example.conn 0) = Some (Table [Example.peer; Example.own] true) /\
  exists c',
    dump (Example.conn 0) =
      (Return [[Text "regiond-2"; Text "10.0.0.9"; Int 4321];
               [Text "regiond-1"; Text "10.0.0.5"; Int 4321]], c').
Proof.
  split; [reflexivity|].
  destruct (dump_lists_every_row (Example.conn 0)
              (Table [Example.peer; Example.own] true) eq_refl)
    as (tuples & c' & Hdump & -> & _).
  exists c'. exact Hdump.
Defined.

(** X2. Before [prepare] has created the table, [update], [remove] and
    [dump] each raise the database's error on their first statement, roll
    back, and create nothing; [update] does so without an INSERT. Once
    [prepare] has run on such a database, [remove] and [dump] succeed on the
    empty table. *)
Theorem operations_need_the_table env c :
  db c = None ->
  (exists c', update env c = (Raise ProgrammingError, c') /\ db c' = None /\
     trace c' = trace c ++ [Begin;
                            Execute (_delete_statement (loop_name env)) (exclusive c);
                            Rollback]) /\
  (exists c', remove env c = (Raise ProgrammingError, c') /\ db c' = None) /\
  (exists c', dump c = (Raise ProgrammingError, c') /\ db c' = None) /\
  db (snd (prepare c)) = Some (Table [] true) /\
  fst (remove env (snd (prepare c))) = Return tt /\
  fst (dump (snd (prepare c))) = Return [].
Proof.
  intros Hd. split; [|split; [|split]].
  - destruct c as [rd d clk ex cur tr]. simpl in Hd. subst d. eexists. split.
    + lazy -[app]. reflexivity.
    + split; [reflexivity|]. simpl. rewrite <- ?app_assoc. reflexivity.
  - eexists. split; [apply (remove_absent env c Hd) | reflexivity].
  - eexists. split; [apply (dump_absent c Hd) | reflexivity].
  - rewrite prepare_runs. cbn [snd]. rewrite Hd. cbn [rows_of indexed].
    split; [reflexivity|]. split.
    + match goal with
      | |- context [remove env ?x] =>
          rewrite (remove_present env x (Table [] true) eq_refl)
      end. reflexivity.
    + match goal with
      | |- context [dump ?x] => rewrite (dump_runs x (Table [] true) eq_refl)
      end. reflexivity.
Qed.

Lemma operations_need_the_table_witness :
  db Example.fresh = None /\
  fst (update Example.env Example.fresh) = Raise ProgrammingError /\
  fst (dump Example.fresh) = Raise ProgrammingError.
Proof.
  split; [reflexivity|].
  destruct (operations_need_the_table Example.env Example.fresh eq_refl)
    as ((c1 & Hup & _) & _ & (c3 & Hdump & _) & _).
  rewrite Hup, Hdump. split; reflexivity.
Defined.

End Reading.

Section Constraints.
Import Sql RegionAdvertisingService.

Lemma insert_checked now vals : forall rs out,
  insert now vals rs = Some out ->
  forall v, v ∈ vals -> port_check (new_row now v).
Proof.
  induction vals as [|v' vals IH]; simpl; intros rs out Hi v Hin.
  - now apply elem_of_nil in Hin.
  - destruct (decide (admissible rs (new_row now v'))) as [Ha|]; [|discriminate].
    apply elem_of_cons in Hin as [->|Hin]; [apply Ha | eapply IH; eauto].
Qed.

Lemma insert_fits now vals : forall rs,
  (forall v, v ∈ vals -> port_check (new_row now v)) ->
  NoDup (key <$> (new_row now <$> vals)) ->
  (forall k, k ∈ key <$> (new_row now <$> vals) -> k ∉ key <$> rs) ->
  insert now vals rs = Some (rs ++ (new_row now <$> vals)).
Proof.
  induction vals as [|v vals IH]; intros rs Hp Hnd Hfree.
  - simpl. now rewrite app_nil_r.
  - rewrite !fmap_cons in Hnd, Hfree. apply NoDup_cons in Hnd as [Hv Hnd].
    simpl. destruct (decide (admissible rs (new_row now v))) as [_|Hn].
    + rewrite IH.
      * now rewrite <- app_assoc.
      * intros v' Hv'. apply Hp. now apply list_elem_of_further.
      * exact Hnd.
      * intros k Hk. rewrite fmap_app. intros Hin.
        apply elem_of_app in Hin as [Hin|Hin].
        -- apply (Hfree k); [now apply list_elem_of_further | exact Hin].
        -- apply list_elem_of_singleton in Hin. subst k. now apply Hv.
    + destruct Hn. apply admissible_iff. split.
      * apply Hp, list_elem_of_here.
      * apply Hfree, list_elem_of_here.
Qed.

Lemma keys_of_values self now (pairs : list (string * Z)) :
  key <$> (new_row now <$> insert_values self pairs) = pairs.
Proof.
  unfold insert_values. induction pairs as [|[a p] pairs IH]; [reflexivity|].
  rewrite !fmap_cons, IH. reflexivity.
Qed.

(** X3. In every state of the table that the four operations can reach,
    every row's port satisfies the CHECK of the table: it is greater than 0
    and at most 65535. *)
Theorem ports_stay_in_range c :
  reachable c -> forall r, r ∈ rows_of (db c) -> 0 < port r <= 65535.
Proof.
  induction 1 as [rd now|c now _ IH|env c now _ IH|env c now _ IH|c now _ IH];
    intros r Hr.
  - now apply elem_of_nil in Hr.
  - rewrite prepare_runs in Hr. now apply IH.
  - destruct (update env (at_time now c)) as [[[]|e] c'] eqn:Hup.
    + destruct (update_returns env _ c' Hup) as (t & pairs & cpairs & rs & Hd & Ha & Hrd & Hi).
      rewrite (update_inserted env _ t pairs cpairs rs Hd Ha Hrd Hi) in Hup.
      injection Hup as <-. simpl in Hr.
      apply list_elem_of_filter in Hr as [_ Hr].
      rewrite (insert_app _ _ _ _ Hi) in Hr. apply elem_of_app in Hr as [Hr|Hr].
      * apply list_elem_of_filter in Hr as [_ Hr]. apply IH.
        simpl in Hd. now rewrite Hd.
      * apply list_elem_of_fmap in Hr as (v & -> & Hv).
        pose proof (insert_checked _ _ _ _ Hi v Hv) as [Hlo Hhi]. lia.
    + simpl in Hr. rewrite (update_raise_db env _ e c' Hup) in Hr. now apply IH.
  - destruct (db c) as [t|] eqn:Hd.
    + rewrite (remove_present env (at_time now c) t Hd) in Hr. simpl in Hr.
      apply list_elem_of_filter in Hr as [_ Hr]. now apply IH.
    + rewrite (remove_absent env (at_time now c) Hd) in Hr.
      now apply elem_of_nil in Hr.
  - rewrite dump_db in Hr. now apply IH.
Qed.

Lemma ports_stay_in_range_witness :
  reachable Example.advertised /\
  forall r, r ∈ rows_of (db Example.advertised) -> 0 < port r <= 65535.
Proof.
  assert (reachable Example.advertised) as Hr
    by (apply reach_update, reach_prepare, reach_fresh).
  split; [exact Hr | exact (ports_stay_in_range Example.advertised Hr)].
Defined.

(** X4. In every state the four operations can reach, a table that exists
    has its index on [name]: only [prepare] creates the table, and it
    creates the index in the same transaction. *)
Theorem table_never_without_index c :
  reachable c -> forall t, db c = Some t -> eventloops_name_idx t = true.
Proof.
  induction 1 as [rd now|c now _ IH|env c now _ IH|env c now _ IH|c now _ IH];
    intros t' Ht.
  - discriminate.
  - rewrite prepare_runs in Ht. now injection Ht as <-.
  - destruct (update env (at_time now c)) as [[[]|e] c'] eqn:Hup.
    + destruct (update_returns env _ c' Hup) as (t & pairs & cpairs & rs & Hd & Ha & Hrd & Hi).
      rewrite (update_inserted env _ t pairs cpairs rs Hd Ha Hrd Hi) in Hup.
      injection Hup as <-. simpl in Ht. injection Ht as <-. simpl.
      now apply IH.
    + simpl in Ht. rewrite (update_raise_db env _ e c' Hup) in Ht. now apply IH.
  - destruct (db c) as [t|] eqn:Hd.
    + rewrite (remove_present env (at_time now c) t Hd) in Ht. simpl in Ht.
      injection Ht as <-. simpl. now apply IH.
    + rewrite (remove_absent env (at_time now c) Hd) in Ht. discriminate.
  - rewrite dump_db in Ht. now apply IH.
Qed.

Lemma table_never_without_index_witness :
  reachable Example.advertised /\
  exists t, db Example.advertised = Some t /\ eventloops_name_idx t = true.
Proof.
  assert (reachable Example.advertised) as Hr
    by (apply reach_update, reach_prepare, reach_fresh).
  split; [exact Hr|].
  exists (Table [Row "regiond-1" "10.0.0.5" 4321 10] true).
  split; [vm_compute; reflexivity|].
  apply (table_never_without_index Example.advertised Hr).
  vm_compute. reflexivity.
Defined.

End Constraints.

Section Advertising.
Import Sql RegionAdvertisingService.

Lemma values_checked self now (pairs : list (string * Z)) :
  (forall v, v ∈ insert_values self pairs -> port_check (new_row now v)) <->
  (forall a p, (a, p) ∈ pairs -> 0 < p <= 65535).
Proof.
  unfold insert_values. split.
  - intros Hall a p Hin.
    assert (port_check (new_row now (self, a, p))) as [Hlo Hhi].
    { apply Hall. apply list_elem_of_fmap. now exists (a, p). }
    simpl in *. lia.
  - intros Hall v Hv. apply list_elem_of_fmap in Hv as ([a p] & -> & Hin).
    specialize (Hall a p Hin). unfold port_check. simpl. lia.
Qed.

Lemma others_free self (rs : list row) (pairs : list (string * Z)) :
  (forall k, k ∈ pairs -> k ∉ key <$> filter (fun r => name r <> self) rs) <->
  (forall r, r ∈ rs -> name r <> self -> key r ∉ pairs).
Proof.
  split.
  - intros Hfree r Hr Hne Hin. apply (Hfree _ Hin).
    apply list_elem_of_fmap. exists r. split; [reflexivity|].
    apply list_elem_of_filter. now split.
  - intros Hfree k Hk Hin. apply list_elem_of_fmap in Hin as (r & -> & Hr).
    apply list_elem_of_filter in Hr as [Hne Hr]. now apply (Hfree r Hr Hne).
Qed.

Lemma read_pairs_None inet (pairs : list (string * Z)) :
  read_pairs inet pairs = None <->
  exists a p, (a, p) ∈ pairs /\ (inet a = None \/ ~ integer p).
Proof.
  induction pairs as [|[a p] pairs IH]; simpl.
  - split; [discriminate|]. intros (a & p & Hin & _). now apply elem_of_nil in Hin.
  - destruct (inet a) as [a'|] eqn:Ha.
    + destruct (decide (integer p)) as [Hp|Hp].
      * destruct (read_pairs inet pairs) as [out|].
        -- split; [discriminate|]. intros (b & q & Hin & Hbad).
           apply elem_of_cons in Hin as [Heq|Hin].
           ++ injection Heq as -> ->. destruct Hbad as [Hbad|Hbad];
                [congruence | contradiction].
           ++ destruct IH as [_ IH]. discriminate IH. eauto.
        -- split; [|reflexivity]. intros _.
           destruct IH as [IH _]. destruct (IH eq_refl) as (b & q & Hin & Hbad).
           exists b, q. split; [now apply list_elem_of_further | exact Hbad].
      * split; [|reflexivity]. intros _. exists a, p.
        split; [apply list_elem_of_here | now right].
    + split; [|reflexivity]. intros _. exists a, p.
      split; [apply list_elem_of_here | now left].
Qed.

Lemma read_pairs_of_spelled inet (pairs cpairs : list (string * Z)) :
  Forall2 (fun ap cp => inet ap.1 = Some cp.1 /\ cp.2 = ap.2) pairs cpairs ->
  (forall a p, (a, p) ∈ cpairs -> integer p) ->
  read_pairs inet pairs = Some cpairs.
Proof.
  induction 1 as [|[a p] [a' p'] pairs cpairs [Ha Hp] _ IH]; intros Hint;
    [reflexivity|].
  simpl in Ha, Hp. subst p'. simpl. rewrite Ha.
  rewrite decide_True by (apply (Hint a'), list_elem_of_here).
  rewrite IH; [reflexivity|].
  intros b q Hin. apply (Hint b). now apply list_elem_of_further.
Qed.

(** X5. On an existing table, [update] returns, raises the error of a
    value the server cannot read, or raises the constraint violation. It
    raises the first exactly when an advertised address is not text the
    server reads as an address or a port does not fit the INTEGER column.
    It returns exactly when the server reads every address, every port is
    in 1..65535, no (address, port) pair is advertised twice, two spellings
    of one address counting as the same, and no pair is held by a row of
    another name. *)
Theorem update_returns_exactly_when env c t pairs :
  db c = Some t ->
  _get_addresses env = Return pairs ->
  (fst (update env c) = Return tt \/
   fst (update env c) = Raise DataError \/
   fst (update env c) = Raise IntegrityError) /\
  (fst (update env c) = Raise DataError <->
   exists a p, (a, p) ∈ pairs /\ (inet c a = None \/ ~ integer p)) /\
  (fst (update env c) = Return tt <->
   exists cpairs,
     Forall2 (fun ap cp => inet c ap.1 = Some cp.1 /\ cp.2 = ap.2) pairs cpairs /\
     (forall a p, (a, p) ∈ cpairs -> 0 < p <= 65535) /\
     NoDup cpairs /\
     (forall r, r ∈ rows t -> name r <> loop_name env -> key r ∉ cpairs)).
Proof.
  intros Hd Ha.
  assert (forall cpairs,
             Forall2 (fun ap cp => inet c ap.1 = Some cp.1 /\ cp.2 = ap.2)
                     pairs cpairs ->
             (forall a p, (a, p) ∈ cpairs -> 0 < p <= 65535) ->
             read_pairs (inet c) pairs = Some cpairs) as Hread.
  { intros cpairs Hsp Hrange. apply (read_pairs_of_spelled _ _ _ Hsp).
    intros a p Hin. specialize (Hrange a p Hin). unfold integer. lia. }
  destruct (read_pairs (inet c) pairs) as [cpairs|] eqn:Hrd.
  - assert (~ exists a p, (a, p) ∈ pairs /\ (inet c a = None \/ ~ integer p))
      as Hgood.
    { intros Hbad. apply read_pairs_None in Hbad. congruence. }
    destruct (insert (clock c) (insert_values (loop_name env) cpairs)
                (filter (fun r => name r <> loop_name env) (rows t)))
      as [rs|] eqn:Hi.
    + rewrite (update_inserted env c t pairs cpairs rs Hd Ha Hrd Hi). simpl.
      split; [now left|]. split; [split; [discriminate | contradiction]|].
      split; [intros _|reflexivity].
      destruct (insert_new_keys _ _ _ _ Hi) as [Hnd Hfree].
      rewrite keys_of_values in Hnd, Hfree.
      exists cpairs. split; [now apply read_pairs_spelled|].
      split; [|split; [exact Hnd|]].
      * apply (values_checked (loop_name env) (clock c)).
        apply (insert_checked _ _ _ _ Hi).
      * now apply others_free.
    + rewrite (update_rejected env c t pairs cpairs Hd Ha Hrd Hi). simpl.
      split; [now right; right|].
      split; [split; [discriminate | contradiction]|].
      split; [discriminate|].
      intros (cpairs' & Hsp & Hp & Hnd & Hfree). exfalso.
      pose proof (Hread cpairs' Hsp Hp) as Heq. injection Heq as <-.
      rewrite insert_fits in Hi; [discriminate| | |].
      * now apply values_checked.
      * now rewrite keys_of_values.
      * rewrite keys_of_values. now apply others_free.
  - rewrite (update_unreadable env c t pairs Hd Ha Hrd). simpl.
    split; [now right; left|]. split.
    + split; [intros _; now apply read_pairs_None | reflexivity].
    + split; [discriminate|].
      intros (cpairs' & Hsp & Hp & _). discriminate (Hread cpairs' Hsp Hp).
Qed.

Lemma update_returns_exactly_when_witness :
  db Example.advertised = Some (Table [Row "regiond-1" "10.0.0.5" 4321 10] true) /\
  _get_addresses Example.env_rival = Return [("10.0.0.5"%string, 4321)] /\
  fst (update Example.env_rival Example.advertised) = Raise IntegrityError /\
  _get_addresses Example.env_loopback
    = Return [("::1"%string, 4321); ("0:0:0:0:0:0:0:1"%string, 4321)] /\
  fst (update Example.env_loopback Example.advertised) = Raise IntegrityError /\
  _get_addresses Example.env_hostname = Return [("localhost"%string, 4321)] /\
  fst (update Example.env_hostname Example.advertised) = Raise DataError.
Proof.
  assert (db Example.advertised
          = Some (Table [Row "regiond-1" "10.0.0.5" 4321 10] true)) as Hd
    by (vm_compute; reflexivity).
  assert (_get_addresses Example.env_rival = Return [("10.0.0.5"%string, 4321)])
    as Ha by (vm_compute; reflexivity).
  assert (_get_addresses Example.env_loopback
          = Return [("::1"%string, 4321); ("0:0:0:0:0:0:0:1"%string, 4321)])
    as Hl by (vm_compute; reflexivity).
  assert (_get_addresses Example.env_hostname = Return [("localhost"%string, 4321)])
    as Hh by (vm_compute; reflexivity).
  split; [exact Hd|]. split; [exact Ha|]. split; [|split; [exact Hl|split; [|split; [exact Hh|]]]].
  - destruct (update_returns_exactly_when Example.env_rival Example.advertised
                _ _ Hd Ha) as [[Hret|[Hdata|Hraise]] _]; [| |exact Hraise].
    + vm_compute in Hret. discriminate.
    + vm_compute in Hdata. discriminate.
  - destruct (update_returns_exactly_when Example.env_loopback Example.advertised
                _ _ Hd Hl) as [[Hret|[Hdata|Hraise]] _]; [| |exact Hraise].
    + vm_compute in Hret. discriminate.
    + vm_compute in Hdata. discriminate.
  - destruct (update_returns_exactly_when Example.env_hostname Example.advertised
                _ _ Hd Hh) as [[Hret|[Hdata|Hraise]] _]; [|exact Hdata|].
    + vm_compute in Hret. discriminate.
    + vm_compute in Hraise. discriminate.
Defined.



End Advertising.

Section RoundTrips.
Import Sql RegionAdvertisingService.

(** X7. What [update] has written, [dump] reads back: after a successful
    [update], [dump] returns, in some order, the (name, address, port) of
    the other names' rows that are not older than five minutes and one
    tuple for each pair of [_get_addresses] under this process's name, the
    address as the server prints it; the tuples under this process's name
    are exactly those. *)
Theorem dump_after_update env c c' :
  update env c = (Return tt, c') ->
  exists t pairs cpairs tuples,
    db c = Some t /\
    _get_addresses env = Return pairs /\
    Forall2 (fun ap cp => inet c ap.1 = Some cp.1 /\ cp.2 = ap.2) pairs cpairs /\
    fst (dump c') = Return tuples /\
    tuples ≡ₚ
      (select_tuple
         <$> filter (fun r => name r <> loop_name env /\ ~ updated r < clock c - 300)
               (rows t))
      ++ ((fun cp => [Text (loop_name env); Text cp.1; Int cp.2]) <$> cpairs) /\
    owned (loop_name env) (db c')
    ≡ₚ (fun cp => [Text (loop_name env); Text cp.1; Int cp.2]) <$> cpairs.
Proof.
  intros Hup.
  destruct (update_returns env c c' Hup)
    as (t & pairs & cpairs & rs & Hd & Ha & Hrd & Hi).
  pose proof (update_rows env c t pairs cpairs rs Hd Ha Hrd Hi) as Hrows.
  pose proof (update_inserted env c t pairs cpairs rs Hd Ha Hrd Hi) as Hc'.
  rewrite Hup in Hrows, Hc'. simpl in Hrows. injection Hc' as Hc'.
  assert (exists t', db c' = Some t') as [t' Hd'] by (rewrite Hc'; simpl; eauto).
  exists t, pairs, cpairs, (select_tuple <$> rows t').
  split; [exact Hd|]. split; [exact Ha|].
  split; [now apply read_pairs_spelled|].
  split; [exact (dump_present c' t' Hd')|].
  split.
  - rewrite Hd' in Hrows. simpl in Hrows.
    rewrite Hrows, fmap_app, tuples_of_values, kept_spelled. reflexivity.
  - now rewrite (owned_after env c c' pairs cpairs Hup Ha Hrd).
Qed.

Lemma dump_after_update_witness :
  update Example.env (Example.conn 100)
    = (Return tt, snd (update Example.env (Example.conn 100))) /\
  exists tuples,
    fst (dump (snd (update Example.env (Example.conn 100)))) = Return tuples /\
    tuples ≡ₚ [[Text "regiond-2"; Text "10.0.0.9"; Int 4321];
               [Text "regiond-1"; Text "10.0.0.5"; Int 4321]].
Proof.
  split; [vm_compute; reflexivity|].
  destruct (dump_after_update Example.env (Example.conn 100)
              (snd (update Example.env (Example.conn 100))))
    as (t & pairs & cpairs & tuples & _ & _ & _ & Hdump & _);
    [vm_compute; reflexivity|].
  exists tuples. split; [exact Hdump|].
  vm_compute in Hdump. injection Hdump as <-. reflexivity.
Defined.

(** X8. As the docstring of [remove] says, a later [update] restores the
    records: after a successful [update], a [remove] at any time succeeds and
    leaves no row of this name, and an [update] after it succeeds again and
    writes back the same (name, address, port) rows. *)
Theorem update_restores_what_remove_deleted env c now1 now2 now3 c1 :
  update env (at_time now1 c) = (Return tt, c1) ->
  exists c2 c3,
    remove env (at_time now2 c1) = (Return tt, c2) /\
    owned (loop_name env) (db c2) = [] /\
    update env (at_time now3 c2) = (Return tt, c3) /\
    owned (loop_name env) (db c3) = owned (loop_name env) (db c1).
Proof.
  intros Hup.
  destruct (update_returns env _ c1 Hup) as (t & pairs & cpairs & rs & Hd & Ha & Hrd & Hi).
  pose proof (update_rows env _ t pairs cpairs rs Hd Ha Hrd Hi) as Hrows1.
  pose proof (update_inserted env _ t pairs cpairs rs Hd Ha Hrd Hi) as Hc1.
  rewrite Hup in Hrows1, Hc1. simpl in Hrows1. injection Hc1 as Hc1.
  assert (exists t1, db c1 = Some t1) as [t1 Hd1] by (rewrite Hc1; simpl; eauto).
  rewrite Hd1 in Hrows1. simpl in Hrows1.
  set (self := loop_name env) in *.
  set (values := insert_values self cpairs) in *.
  set (others := filter (fun r => name r <> self) (rows t)) in *.
  set (O1 := filter (fun r => ~ stale now1 r) others) in *.
  assert (inet c1 = inet c) as Hinet1 by (rewrite Hc1; reflexivity).
  assert (forall r, r ∈ O1 -> name r <> self) as HO1.
  { intros r Hr. apply list_elem_of_filter in Hr as [_ Hr].
    now apply list_elem_of_filter in Hr as [Hr _]. }
  assert (forall now r, r ∈ new_row now <$> values -> name r = self) as HN
    by (intros now r; apply new_row_name).
  destruct (owned_after_update self O1 (new_row now1 <$> values) HO1 (HN now1))
    as [Hown1 Hoth1].
  assert (db (at_time now2 c1) = Some t1) as Hd1' by exact Hd1.
  pose proof (remove_present env _ t1 Hd1') as Hrm.
  fold self in Hrm. rewrite Hrows1, Hoth1 in Hrm.
  set (c2 := snd (remove env (at_time now2 c1))).
  assert (db c2 = Some (Table O1 (eventloops_name_idx t1))) as Hd2
    by (subst c2; rewrite Hrm; reflexivity).
  assert (db (at_time now3 c2) = Some (Table O1 (eventloops_name_idx t1)))
    as Hd2' by exact Hd2.
  assert (insert now3 values O1 = Some (O1 ++ (new_row now3 <$> values))) as Hi3.
  { apply (insert_mono now1 now3 values others O1 rs Hi).
    intros k. apply key_filter. }
  assert (read_pairs (inet (at_time now3 c2)) pairs = Some cpairs) as Hrd3.
  { subst c2. rewrite Hrm. simpl. rewrite Hinet1. exact Hrd. }
  assert (insert (clock (at_time now3 c2)) (insert_values (loop_name env) cpairs)
            (filter (fun r => name r <> loop_name env)
               (rows (Table O1 (eventloops_name_idx t1))))
          = Some (O1 ++ (new_row now3 <$> values))) as Hi3'.
  { simpl. fold self values. rewrite (filter_all _ O1 HO1). exact Hi3. }
  pose proof (update_rows env _ _ pairs cpairs _ Hd2' Ha Hrd3 Hi3') as Hrows3.
  pose proof (update_inserted env _ _ pairs cpairs _ Hd2' Ha Hrd3 Hi3') as Hup3.
  simpl in Hrows3. fold self values in Hrows3.
  rewrite (filter_all _ O1 HO1) in Hrows3.
  exists c2, (snd (update env (at_time now3 c2))).
  split; [subst c2; rewrite Hrm; reflexivity|].
  split.
  { unfold owned. rewrite Hd2. simpl. rewrite filter_none; [reflexivity|].
    intros r Hr Heq. now apply (HO1 r Hr). }
  split; [rewrite Hup3; reflexivity|].
  assert (exists t3, db (snd (update env (at_time now3 c2))) = Some t3)
    as [t3 Hd3] by (rewrite Hup3; simpl; eauto).
  unfold owned. rewrite Hd3, Hd1 in *. simpl in *. rewrite Hrows3, Hrows1.
  assert (forall r, r ∈ filter (fun r => ~ stale now3 r) O1 -> name r <> self)
    as HO3.
  { intros r Hr. apply list_elem_of_filter in Hr as [_ Hr]. now apply HO1. }
  destruct (owned_after_update self _ (new_row now3 <$> values) HO3 (HN now3))
    as [Hown3 _].
  rewrite Hown3, Hown1. apply new_row_tuple.
Qed.

Lemma update_restores_what_remove_deleted_witness :
  update Example.env (at_time 10 (Example.conn 0))
    = (Return tt, snd (update Example.env (at_time 10 (Example.conn 0)))) /\
  exists c2 c3,
    remove Example.env
      (at_time 20 (snd (update Example.env (at_time 10 (Example.conn 0)))))
      = (Return tt, c2) /\
    update Example.env (at_time 30 c2) = (Return tt, c3).
Proof.
  split; [vm_compute; reflexivity|].
  destruct (update_restores_what_remove_deleted Example.env (Example.conn 0)
              10 20 30 (snd (update Example.env (at_time 10 (Example.conn 0)))))
    as (c2 & c3 & Hrm & _ & Hup & _); [vm_compute; reflexivity|].
  exists c2, c3. split; [exact Hrm | exact Hup].
Defined.

End RoundTrips.

Section Removal.
Import Sql RegionAdvertisingService.

(** X9. [remove] can be repeated and its order among processes does not
    matter: on an existing table a second [remove] by the same process
    returns and deletes nothing more, and the [remove]s of two processes
    leave the same rows whichever runs first. *)
Theorem remove_repeats_and_commutes env1 env2 c t :
  db c = Some t ->
  fst (remove env1 (snd (remove env1 c))) = Return tt /\
  db (snd (remove env1 (snd (remove env1 c)))) = db (snd (remove env1 c)) /\
  db (snd (remove env2 (snd (remove env1 c))))
    = db (snd (remove env1 (snd (remove env2 c)))) /\
  (forall r, r ∈ rows_of (db (snd (remove env2 (snd (remove env1 c))))) <->
             r ∈ rows t /\ name r <> loop_name env1 /\ name r <> loop_name env2).
Proof.
  intros Hd.
  assert (forall env c' t', db c' = Some t' ->
            db (snd (remove env c'))
            = Some (Table (filter (fun r => name r <> loop_name env) (rows t'))
                          (eventloops_name_idx t'))) as Hdb.
  { intros env c' t' Hd'. now rewrite (remove_present env c' t' Hd'). }
  pose proof (Hdb env1 c t Hd) as H1. pose proof (Hdb env2 c t Hd) as H2.
  pose proof (Hdb env1 _ _ H1) as H11. pose proof (Hdb env2 _ _ H1) as H12.
  pose proof (Hdb env1 _ _ H2) as H21. simpl in H11, H12, H21.
  split; [now rewrite (remove_present env1 _ _ H1)|].
  split.
  { rewrite H11, H1. f_equal. f_equal. apply list_filter_filter_l. tauto. }
  split.
  { rewrite H12, H21. f_equal. f_equal. rewrite !list_filter_filter.
    apply list_filter_iff. tauto. }
  intros r. rewrite H12. simpl. rewrite !list_elem_of_filter. tauto.
Qed.

Lemma remove_repeats_and_commutes_witness :
  db (Example.conn 0) = Some (Table [Example.peer; Example.own] true) /\
  db (snd (remove Example.env_rival (snd (remove Example.env (Example.conn 0)))))
    = db (snd (remove Example.env (snd (remove Example.env_rival (Example.conn 0))))).
Proof.
  split; [reflexivity|].
  apply (remove_repeats_and_commutes Example.env Example.env_rival
           (Example.conn 0) (Table [Example.peer; Example.own] true) eq_refl).
Defined.

End Removal.

(** * Further properties of the two services *)

Section ListenerLife.
Import RegionService.

Variable stopListening : Port -> Port * option deferred.

(** X10. A bind that fails with anything but the cancellation is handed to
    [log.err] exactly once, whether the failure is there when [listen]
    returns or comes later; [starting] ends with [None] as its result, no
    port is saved, and the service stays marked as running. The
    cancellation itself is never logged. *)
Theorem failed_bind_is_logged_once s0 e :
  e <> CancelledError ->
  let s := startService (Some (Raise e)) s0 in
  log s = log s0 ++ [Logged e] /\
  starting s = Some (Deferred.Make (Some (Return PyNone)) false []) /\
  _port s = _port s0 /\
  running s = true /\
  listened (Raise e) (startService None s0) = (Return tt, s) /\
  log (startService (Some (Raise CancelledError)) s0) = log s0 /\
  getPort s = getPort s0.
Proof.
  intros He. cbv zeta.
  assert (startService (Some (Raise e)) s0 =
          Make true (Some (Deferred.Make (Some (Return PyNone)) false []))
               (_port s0) (log s0 ++ [Logged e])) as Hs
    by (destruct e; try reflexivity; now destruct He).
  rewrite Hs. simpl. repeat (split; [reflexivity|]).
  split; [destruct e; try reflexivity; now destruct He|].
  split; reflexivity.
Qed.

Lemma failed_bind_is_logged_once_witness :
  CannotListenError <> CancelledError /\
  log (startService (Some (Raise CannotListenError)) __init__)
    = [Logged CannotListenError].
Proof.
  split; [discriminate|].
  apply (failed_bind_is_logged_once __init__ CannotListenError). discriminate.
Defined.

(** X11. [stopService] on a listener that has a port calls
    [stopListening] on it once and keeps the port object in [_port]: it is
    not reset, [starting] is left as it fired, and [getPort] goes on
    answering from whatever socket that port still has. The service is
    marked stopped at once only if the deferred of [stopListening] has
    already fired; if it is still waiting, it is marked stopped when that
    deferred fires. *)
Theorem stopService_keeps_the_port s0 p p' d :
  stopListening p = (p', Some d) ->
  Deferred.callbacks d = [] ->
  let s := startService (Some (Return p)) s0 in
  exists d' s',
    stopService stopListening s = (Return d', s') /\
    _port s' = Some p' /\
    starting s' = starting s /\
    log s' = log s0 ++ [PortClosed] /\
    getPort s' = match socket p' with
                 | Some sock => Return (Some (getsockname sock).2)
                 | None => Return None
                 end /\
    running s' = match Deferred.result d with
                 | Some (Return _) => false
                 | _ => true
                 end /\
    (Deferred.result d = None ->
     exists d'' s'',
       Deferred.fire call (Return PyNone) d' s' = (Return d'', s'') /\
       running s'' = false /\ _port s'' = Some p').
Proof.
  intros Hstop Hcb. cbv zeta.
  unfold stopService, startService, Deferred.cancel, Deferred.addCallbacks,
    Deferred._runCallbacks, set_starting. simpl. rewrite Hstop, Hcb.
  destruct d as [[[v|e']|] sup cbs]; simpl in *; subst cbs; simpl.
  - eexists. eexists. split; [reflexivity|]. simpl.
    repeat (split; [reflexivity|]). split.
    + unfold getPort, _port_socket. simpl.
      destruct (socket p') as [[[host n]]|]; reflexivity.
    + split; [reflexivity | discriminate].
  - eexists. eexists. split; [reflexivity|]. simpl.
    repeat (split; [reflexivity|]). split.
    + unfold getPort, _port_socket. simpl.
      destruct (socket p') as [[[host n]]|]; reflexivity.
    + split; [reflexivity | discriminate].
  - eexists. eexists. split; [reflexivity|]. simpl.
    repeat (split; [reflexivity|]). split.
    + unfold getPort, _port_socket. simpl.
      destruct (socket p') as [[[host n]]|]; reflexivity.
    + split; [reflexivity|]. intros _. eexists. eexists.
      split; [reflexivity|]. split; reflexivity.
Qed.

End ListenerLife.

Lemma stopService_keeps_the_port_witness :
  exists d' s',
    RegionService.stopService (fun p => (p, Some Deferred.pending))
      Example.listening = (Return d', s') /\
    RegionService.getPort s' = Return (Some 4321) /\
    RegionService.running s' = true.
Proof.
  destruct (stopService_keeps_the_port (fun p => (p, Some Deferred.pending))
              RegionService.__init__ Example.port Example.port
              Deferred.pending eq_refl eq_refl)
    as (d' & s' & Hstop & _ & _ & _ & Hport & Hrun & _).
  exists d', s'. split; [exact Hstop|]. split; [exact Hport | exact Hrun].
Defined.

Section Startup.
Import Sql RegionAdvertisingService.

Lemma _get_addresses_returns env : exists pairs, _get_addresses env = Return pairs.
Proof.
  unfold _get_addresses, getServiceNamed.
  destruct (services env !! "rpc"%string) as [service|]; [|eauto].
  destruct (getPort_returns service) as [[n|] ->]; eauto.
Qed.

Lemma update_outcomes env c t :
  db c = Some t ->
  fst (update env c) = Return tt \/
  fst (update env c) = Raise DataError \/
  fst (update env c) = Raise IntegrityError.
Proof.
  intros Hd. destruct (_get_addresses_returns env) as [pairs Ha].
  destruct (read_pairs (inet c) pairs) as [cpairs|] eqn:Hrd.
  - destruct (insert (clock c) (insert_values (loop_name env) cpairs)
                (filter (fun r => name r <> loop_name env) (rows t)))
      as [rs|] eqn:Hi.
    + left. now rewrite (update_inserted env c t pairs cpairs rs Hd Ha Hrd Hi).
    + right; right. now rewrite (update_rejected env c t pairs cpairs Hd Ha Hrd Hi).
  - right; left. now rewrite (update_unreadable env c t pairs Hd Ha Hrd).
Qed.

(** X12. Start-up in order: when the thread that runs [prepare] is done,
    the table and its index exist, [starting] has fired with [None], the
    timer is started after the commit of [prepare], and its first [update]
    is already waiting for a thread. That [update] finds the table: when it
    returns, the timer waits for its next turn, which queues the next
    [update]; when it raises, which it does only with the error of an
    unreadable value or of a violated constraint, the failure is logged
    once, the table is as [prepare] left it, and the timer has ended: a
    later turn queues nothing. *)
Theorem startup_prepares_before_the_first_update env c t1 t2 :
  let w1 := run_thread env t1 (snd (startService (__init__ c))) in
  let w2 := run_thread env t2 w1 in
  conn w1 = record TimerStarted (snd (prepare (at_time t1 c))) /\
  db (conn w1) = Some (Table (rows_of (db c)) true) /\
  running w1 = true /\
  _loop w1 = Calling /\
  starting w1 = Some 0%nat /\
  deferreds w1 !! 0%nat = Some (Deferred.Make (Some (Return PyNone)) false []) /\
  threads w1 = [(Update, 1%nat)] /\
  tick w1 = w1 /\
  threads w2 = [] /\
  (forall c2,
      update env (at_time t2 (conn w1)) = (Return tt, c2) ->
      conn w2 = c2 /\ _loop w2 = Scheduled /\
      threads (tick w2) = [(Update, 2%nat)]) /\
  (forall e c2,
      update env (at_time t2 (conn w1)) = (Raise e, c2) ->
      (e = DataError \/ e = IntegrityError) /\
      conn w2 = record (Logged e) c2 /\
      db (conn w2) = db (conn w1) /\
      _loop w2 = Finished /\
      tick w2 = w2).
Proof.
  cbv zeta.
  assert (run_thread env t1 (snd (startService (__init__ c))) =
          Make (Some 0%nat) None true Calling
               [Deferred.Make (Some (Return PyNone)) false [];
                Deferred.Make None false
                  [Deferred.Callback loop_returned; Deferred.Errback loop_failed]]
               [(Update, 1%nat)]
               (record TimerStarted (snd (prepare (at_time t1 c))))) as Hw1.
  { unfold run_thread, startService. simpl. fold (at_time t1 c).
    rewrite prepare_runs. reflexivity. }
  rewrite Hw1. cbn [conn running starting deferreds threads _loop].
  split; [reflexivity|]. split; [now rewrite prepare_runs|].
  repeat (split; [reflexivity|]).
  remember (record TimerStarted (snd (prepare (at_time t1 c)))) as c1 eqn:Hc1.
  assert (db (at_time t2 c1) = Some (Table (rows_of (db c)) true)) as Hd
    by (subst c1; now rewrite prepare_runs).
  pose proof (update_outcomes env (at_time t2 c1) _ Hd) as Hor.
  rewrite (run_thread_update env t2 _ 1%nat []); [|reflexivity|reflexivity].
  cbn [conn running starting stopping deferreds threads _loop].
  destruct (update env (at_time t2 c1)) as [[[]|e] c2] eqn:Hup;
    cbn [call snd _loop set_loop set_running log_event set_deferred
         conn running threads starting stopping deferreds tick];
    (split; [reflexivity|]).
  - split; [|intros e c2' Heq; discriminate].
    intros c2' Heq. injection Heq as <-. repeat split.
  - split; [intros c2' Heq; discriminate|].
    intros e' c2' Heq. injection Heq as <- <-.
    split; [simpl in Hor; destruct Hor as [Hor|[Hor|Hor]];
            [discriminate | injection Hor as ->; now left
             | injection Hor as ->; now right]|].
    split; [reflexivity|].
    split; [|split; reflexivity].
    cbn [record db]. now rewrite (update_raise_db env _ e c2 Hup).
Qed.

(** X13. A service that was never started cannot be stopped: with
    [starting] still [None], [stopService] of the listener and of the
    advertising service raise [AttributeError] before doing anything, and
    after [startService] neither raises it for that reason again as long
    as the bind is in flight or the preparation has not come back. *)
Theorem stopService_before_startService_raises
        (stopListening : RegionService.Port -> RegionService.Port
                                               * option RegionService.deferred)
        (s : RegionService.t) (w : t) :
  RegionService.starting s = None ->
  starting w = None ->
  RegionService.stopService stopListening s = (Raise AttributeError, s) /\
  stopService w = (Raise AttributeError, w) /\
  (RegionService._port s = None ->
   exists d, fst (RegionService.stopService stopListening
                    (RegionService.startService None s)) = Return d) /\
  exists i, fst (stopService (snd (startService w))) = Return i.
Proof.
  intros Hs Hw. split; [|split; [|split]].
  - unfold RegionService.stopService. now rewrite Hs.
  - unfold stopService. now rewrite Hw.
  - intros Hp. rewrite startService_pending, Hp. eexists. reflexivity.
  - destruct (startService_chain w) as (w' & Hstart & Hst & Hd & _).
    rewrite Hstart. simpl. exists (length (deferreds w)).
    now rewrite (stop_while_preparing w' _ Hst Hd).
Qed.

Lemma stopService_before_startService_raises_witness :
  RegionService.starting RegionService.__init__ = None /\
  starting (__init__ Example.fresh) = None /\
  fst (RegionService.stopService (fun p => (p, None)) RegionService.__init__)
    = Raise AttributeError /\
  fst (stopService (__init__ Example.fresh)) = Raise AttributeError.
Proof.
  split; [reflexivity|]. split; [reflexivity|].
  destruct (stopService_before_startService_raises (fun p => (p, None))
              RegionService.__init__ (__init__ Example.fresh) eq_refl eq_refl)
    as (Hs & Hw & _).
  rewrite Hs, Hw. split; reflexivity.
Defined.

End Startup.

Lemma startup_prepares_before_the_first_update_witness :
  exists c2,
    RegionAdvertisingService.update Example.env
      (at_time 10 (RegionAdvertisingService.conn
                     (RegionAdvertisingService.run_thread Example.env 0
                        Example.preparing)))
      = (Return tt, c2) /\
    RegionAdvertisingService.conn Example.started = c2 /\
    RegionAdvertisingService._loop Example.started
      = RegionAdvertisingService.Scheduled.
Proof.
  destruct (startup_prepares_before_the_first_update Example.env Example.fresh 0 10)
    as (_ & _ & _ & _ & _ & _ & _ & _ & _ & Hret & _).
  set (c2 := snd (RegionAdvertisingService.update Example.env
                    (at_time 10 (RegionAdvertisingService.conn
                                   (RegionAdvertisingService.run_thread
                                      Example.env 0 Example.preparing))))).
  assert (RegionAdvertisingService.update Example.env
            (at_time 10 (RegionAdvertisingService.conn
                           (RegionAdvertisingService.run_thread Example.env 0
                              Example.preparing)))
          = (Return tt, c2)) as Hup by (vm_compute; reflexivity).
  exists c2. split; [exact Hup|].
  destruct (Hret c2 Hup) as (Hc & Hl & _). split; [exact Hc | exact Hl].
Defined.

(** * The in-memory vault of the tests *)

Section Vault.
Import MockVaultClient.
Context {V : Type}.

Lemma get_lookup (store : gmap string V) path :
  get store path = match store !! path with
                   | Some value => inl value
                   | None => inr (SecretNotFound path)
                   end.
Proof. reflexivity. Qed.

(** X14. What [set] stores, [get] returns: after [set] a [get] of the same
    path gives the value, a [get] of any other path answers as before, and
    a second [set] of the path replaces the first. *)
Theorem get_returns_what_set_stored (store : gmap string V) path other value old :
  get (set store path value) path = inl value /\
  get (set store path value) other
    = (if decide (other = path) then inl value else get store other) /\
  set (set store path old) path value = set store path value.
Proof.
  unfold set. rewrite !get_lookup. split; [|split].
  - now rewrite lookup_insert_eq.
  - destruct (decide (other = path)) as [->|Hne].
    + now rewrite lookup_insert_eq.
    + now rewrite lookup_insert_ne.
  - apply insert_insert_eq.
Qed.

(** X15. A path that is not in the store makes [get] raise
    [SecretNotFound] with that path, as on a new client and after [delete];
    [delete] itself never raises, leaves every other path alone, and changes
    nothing when the path was not there. *)
Theorem delete_then_get_is_not_found (store : gmap string V) path other value :
  get (__init__ : gmap string V) path = inr (SecretNotFound path) /\
  get (delete store path) path = inr (SecretNotFound path) /\
  get (delete store path) other
    = (if decide (other = path) then inr (SecretNotFound other)
       else get store other) /\
  delete (set store path value) path = delete store path /\
  (get store path = inr (SecretNotFound path) ->
   delete store path = store /\ delete (set store path value) path = store).
Proof.
  unfold delete, set, __init__. rewrite !get_lookup.
  split; [now rewrite lookup_empty|].
  split; [now rewrite lookup_delete_eq|].
  split.
  { destruct (decide (other = path)) as [->|Hne].
    - now rewrite lookup_delete_eq.
    - now rewrite lookup_delete_ne. }
  split; [apply delete_insert_eq|].
  destruct (store !! path) as [v|] eqn:Hl; [discriminate|]. intros _.
  split; [now apply delete_id|].
  rewrite delete_insert_eq. now apply delete_id.
Qed.

End Vault.

Lemma delete_then_get_is_not_found_witness :
  MockVaultClient.get (MockVaultClient.__init__ (V := string)) "global/tls"
    = inr (MockVaultClient.SecretNotFound "global/tls") /\
  MockVaultClient.delete
    (MockVaultClient.set MockVaultClient.__init__ "global/tls" "foo"%string)
    "global/tls"
    = MockVaultClient.__init__.
Proof.
  destruct (delete_then_get_is_not_found (MockVaultClient.__init__ (V := string))
              "global/tls" "global/tls" "foo"%string)
    as (Hnew & _ & _ & _ & Hmissing).
  split; [exact Hnew|]. apply (Hmissing Hnew).
Defined.

(** * Composition of the pieces *)

Section Composition.
Import Sql RegionAdvertisingService.

Lemma read_pairs_port inet n (addrs : list string) : forall cpairs,
  read_pairs inet ((fun addr => (addr, n)) <$> addrs) = Some cpairs ->
  exists addresses,
    Forall2 (fun addr a => inet addr = Some a) addrs addresses /\
    cpairs = (fun a => (a, n)) <$> addresses.
Proof.
  induction addrs as [|addr addrs IH]; intros cpairs Hrd.
  - injection Hrd as <-. exists []. split; [constructor | reflexivity].
  - rewrite fmap_cons in Hrd. cbn [read_pairs] in Hrd.
    destruct (inet addr) as [a|] eqn:Ha; [|discriminate].
    destruct (decide (integer n)); [|discriminate].
    destruct (read_pairs inet _) as [out|] eqn:Hout; [|discriminate].
    injection Hrd as <-. destruct (IH out eq_refl) as (addresses & Hall & ->).
    exists (a :: addresses). split; [now constructor | reflexivity].
Qed.

Lemma Forall2_same inet (addrs addresses : list string) :
  Forall2 (fun addr a => inet addr = Some a) addrs addresses ->
  (forall addr, addr ∈ addrs -> inet addr = Some addr) ->
  addresses = addrs.
Proof.
  induction 1 as [|addr a addrs addresses Ha _ IH]; intros Hsame; [reflexivity|].
  rewrite (Hsame addr) in Ha by apply list_elem_of_here. injection Ha as <-.
  f_equal. apply IH. intros b Hb. now apply Hsame, list_elem_of_further.
Qed.

(** X16. With a service named "rpc" registered and [getPort] returning
    [n], [_get_addresses] yields (address, n) for every interface address, in
    their order, and a successful [update] leaves under this process's name
    exactly one row per interface address, each with port [n] and the
    address as the server reads it: the very text of the interface address
    when that is how the server prints it. *)
Theorem update_advertises_every_interface env service n c c' :
  services env !! "rpc"%string = Some service ->
  RegionService.getPort service = Return (Some n) ->
  update env c = (Return tt, c') ->
  _get_addresses env
    = Return ((fun addr => (addr, n)) <$> get_all_interface_addresses env) /\
  (exists addresses,
      Forall2 (fun addr a => inet c addr = Some a)
              (get_all_interface_addresses env) addresses /\
      owned (loop_name env) (db c')
        = (fun a => [Text (loop_name env); Text a; Int n]) <$> addresses) /\
  ((forall addr, addr ∈ get_all_interface_addresses env -> inet c addr = Some addr) ->
   owned (loop_name env) (db c')
     = (fun addr => [Text (loop_name env); Text addr; Int n])
         <$> get_all_interface_addresses env) /\
  length (owned (loop_name env) (db c'))
    = length (get_all_interface_addresses env).
Proof.
  intros Hsvc Hport Hup.
  assert (_get_addresses env
          = Return ((fun addr => (addr, n)) <$> get_all_interface_addresses env))
    as Ha.
  { unfold _get_addresses, getServiceNamed. now rewrite Hsvc, Hport. }
  split; [exact Ha|].
  destruct (update_returns env c c' Hup)
    as (t & pairs & cpairs & rs & _ & Ha' & Hrd & _).
  rewrite Ha in Ha'. injection Ha' as <-.
  destruct (read_pairs_port _ _ _ _ Hrd) as (addresses & Hall & ->).
  rewrite (owned_after env c c' _ _ Hup Ha Hrd), <- list_fmap_compose.
  split; [|split].
  - exists addresses. split; [exact Hall | reflexivity].
  - intros Hsame. now rewrite (Forall2_same _ _ _ Hall Hsame).
  - rewrite length_fmap. symmetry. apply (Forall2_length _ _ _ Hall).
Qed.

Lemma update_advertises_every_interface_witness :
  services Example.env !! "rpc"%string = Some Example.listening /\
  RegionService.getPort Example.listening = Return (Some 4321) /\
  update Example.env (Example.conn 100)
    = (Return tt, snd (update Example.env (Example.conn 100))) /\
  owned "regiond-1" (db (snd (update Example.env (Example.conn 100))))
    = [[Text "regiond-1"; Text "10.0.0.5"; Int 4321]].
Proof.
  assert (services Example.env !! "rpc"%string = Some Example.listening) as Hs
    by (vm_compute; reflexivity).
  assert (update Example.env (Example.conn 100)
          = (Return tt, snd (update Example.env (Example.conn 100)))) as Hup
    by (vm_compute; reflexivity).
  split; [exact Hs|]. split; [reflexivity|]. split; [exact Hup|].
  destruct (update_advertises_every_interface Example.env Example.listening 4321
              (Example.conn 100) _ Hs eq_refl Hup) as (_ & _ & Hsame & _).
  apply Hsame. intros addr Hin.
  apply list_elem_of_singleton in Hin. subst addr. reflexivity.
Defined.

End Composition.
